(** * TaskAI: the task-tree mutation engine and the tool dispatch loop

    A shallow embedding of the recursive helpers of [App.tsx]
    ([toggleTaskRecursive], [deleteTaskRecursive], [addSubtaskRecursive],
    [findAndRemoveRecursive], [updateStatusRecursive]) and of the tool
    loop of [handleSendMessage], with the properties the specification
    states about them. *)

From Stdlib Require Import List String Ascii Bool Arith ZArith Lia.
From Stdlib Require Import DecimalString.
From Stdlib Require Import Sorted Permutation.
Import ListNotations.
Local Open Scope string_scope.
Local Open Scope list_scope.

Set Warnings "-register-all".

(** ** JavaScript strings

    A JavaScript string is modelled as a [string] of code units.  The
    properties below never look inside a code unit, so their width is
    immaterial. *)

Module JS.

(** [s.includes(sub)]: [sub] occurs in [s] at some offset. *)
Fixpoint includes (s sub : string) : bool :=
  String.prefix sub s
  || match s with
     | EmptyString => false
     | String _ s' => includes s' sub
     end.

(** Truthiness of a value of type [string | undefined]: [undefined]
    and the empty string are falsy. *)
Definition truthy (v : option string) : bool :=
  match v with
  | None => false
  | Some s => negb (s =? "")
  end.

(** [x === v] for a string [x] and a [v] of type [string | undefined]. *)
Definition strict_eq (x : string) (v : option string) : bool :=
  match v with
  | None => false
  | Some s => x =? s
  end.

(** An ASCII instance of [String.prototype.toLowerCase], used to run
    the engine on concrete forests. *)
Definition lower_ascii (c : ascii) : ascii :=
  let n := nat_of_ascii c in
  if ((65 <=? n) && (n <=? 90))%nat then ascii_of_nat (n + 32) else c.

Fixpoint ascii_toLowerCase (s : string) : string :=
  match s with
  | EmptyString => EmptyString
  | String c s' => String (lower_ascii c) (ascii_toLowerCase s')
  end.

(** [`${v}`] for a [v] of type [string | undefined]. *)
Definition show (v : option string) : string :=
  match v with
  | None => "undefined"
  | Some s => s
  end.

(** [Number.prototype.toString] on a natural number. *)
Definition show_nat (n : nat) : string :=
  NilZero.string_of_uint (Nat.to_uint n).

End JS.

(** ** The task tree (types.ts) *)

(** [enum Priority] of [types.ts]: a string enum with the values
    ['low'], ['medium'] and ['high'].  [App.tsx] casts a field of
    [args: any] to it, which has no run-time effect, so a priority is its
    run-time string. *)
Definition Priority := string.

Module PriorityEnum.
Definition LOW : Priority := "low".
Definition MEDIUM : Priority := "medium".
Definition HIGH : Priority := "high".
End PriorityEnum.

(** [interface Task] of [types.ts], field for field; [createdAt] is the
    integer that [Date.now()] returns.  [subtasks?: Task[]] is optional:
    [None] stands for an absent (or [undefined]) property, [Some []] for
    an empty array, which JavaScript treats as truthy. *)
Inductive Task : Type := mkTask {
  id : string;
  title : string;
  isCompleted : bool;
  priority : Priority;
  createdAt : Z;
  subtasks : option (list Task)
}.

(** [{ ...task, isCompleted: b }] and [{ ...task, subtasks: s }]. *)
Definition with_isCompleted (task : Task) (b : bool) : Task :=
  mkTask (id task) (title task) b (priority task) (createdAt task)
         (subtasks task).

Definition with_subtasks (task : Task) (s : option (list Task)) : Task :=
  mkTask (id task) (title task) (isCompleted task) (priority task)
         (createdAt task) s.

(** ** A small state monad

    [addSubtaskRecursive], [findAndRemoveRecursive] and
    [updateStatusRecursive] close over a local variable ([added],
    [count], [found]) that the callback of [map] or [reduce] reads and
    writes.  The variable is threaded explicitly. *)

Module St.

Definition M (S A : Type) : Type := S -> A * S.

Definition ret {S A} (a : A) : M S A := fun s => (a, s).

Definition bind {S A B} (m : M S A) (k : A -> M S B) : M S B :=
  fun s => let (a, s') := m s in k a s'.

Definition get {S} : M S S := fun s => (s, s).

Definition put {S} (s : S) : M S unit := fun _ => (tt, s).

(** [list.map(f)] when [f] has an effect on the closed-over variable. *)
Definition map {S A B} (f : A -> M S B) : list A -> M S (list B) :=
  fix go (l : list A) : M S (list B) :=
    match l with
    | [] => ret []
    | x :: r => bind (f x) (fun y => bind (go r) (fun ys => ret (y :: ys)))
    end.

(** [list.reduce(f, init)] when [f] has an effect. *)
Definition reduce {S A B} (f : B -> A -> M S B) : list A -> B -> M S B :=
  fix go (l : list A) (acc : B) : M S B :=
    match l with
    | [] => ret acc
    | x :: r => bind (f acc x) (fun acc' => go r acc')
    end.

End St.

Notation "x <- m ;; k" := (St.bind m (fun x => k))
  (at level 61, m at next level, right associativity).

(** ** The mutation engine *)

Section Engine.

(** [String.prototype.toLowerCase]. *)
Variable toLowerCase : string -> string.

(** *** toggleTaskRecursive *)

(** The callback of [tasks.map]. *)
Fixpoint toggleTask (id0 : string) (task : Task) : Task :=
  if id task =? id0 then with_isCompleted task (negb (isCompleted task))
  else match subtasks task with
       | Some subs => with_subtasks task (Some (List.map (toggleTask id0) subs))
       | None => task
       end.

Definition toggleTaskRecursive (tasks : list Task) (id0 : string) : list Task :=
  List.map (toggleTask id0) tasks.

(** *** deleteTaskRecursive

    [tasks.filter(task => task.id !== id).map(task => ...)].  The
    recursion goes through the filtered list, so the two passes are
    written as one local loop; [deleteTask_eq] below gives the
    filter-then-map form of the source. *)
Fixpoint deleteTask (id0 : string) (task : Task) : Task :=
  with_subtasks task
    match subtasks task with
    | Some subs =>
        Some ((fix go (l : list Task) : list Task :=
                 match l with
                 | [] => []
                 | t :: r => if negb (id t =? id0)
                             then deleteTask id0 t :: go r
                             else go r
                 end) subs)
    | None => None
    end.

Definition deleteTaskRecursive (tasks : list Task) (id0 : string) : list Task :=
  List.map (deleteTask id0) (List.filter (fun task => negb (id task =? id0)) tasks).

(** *** addSubtaskRecursive *)

Definition isMatch (parentQuery : string) (task : Task) : bool :=
  (id task =? parentQuery)
  || JS.includes (toLowerCase (title task)) (toLowerCase parentQuery).

(** The callback of [list.map] inside [updateInfo]; the state is the
    variable [added]. *)
Fixpoint updateInfoTask (parentQuery : string) (newSubtask : Task)
         (task : Task) : St.M bool Task :=
  added <- St.get ;;
  if isMatch parentQuery task && negb added then
    _ <- St.put true ;;
    St.ret (with_subtasks task
              (match subtasks task with
               | Some subs => Some (subs ++ [newSubtask])
               | None => Some [newSubtask]
               end))
  else
    match subtasks task with
    | Some subs =>
        subs' <- St.map (updateInfoTask parentQuery newSubtask) subs ;;
        St.ret (with_subtasks task (Some subs'))
    | None => St.ret task
    end.

Definition updateInfo (parentQuery : string) (newSubtask : Task)
  : list Task -> St.M bool (list Task) :=
  St.map (updateInfoTask parentQuery newSubtask).

(** Returns [(updatedTasks, success)]. *)
Definition addSubtaskRecursive (tasks : list Task) (parentQuery : string)
           (newSubtask : Task) : list Task * bool :=
  updateInfo parentQuery newSubtask tasks false.

(** *** findAndRemoveRecursive *)

Definition matchId (taskId : option string) (task : Task) : bool :=
  JS.truthy taskId && JS.strict_eq (id task) taskId.

Definition matchTitle (searchTitle : option string) (task : Task) : bool :=
  match searchTitle with
  | Some q => JS.truthy searchTitle
              && JS.includes (toLowerCase (title task)) (toLowerCase q)
  | None => false
  end.

(** The callback of [list.reduce] inside [filterList]; the state is the
    variable [count]. *)
Fixpoint filterTask (taskId searchTitle : option string)
         (acc : list Task) (task : Task) : St.M nat (list Task) :=
  if matchId taskId task || matchTitle searchTitle task then
    count <- St.get ;;
    _ <- St.put (S count) ;;
    St.ret acc
  else
    match subtasks task with
    | Some subs =>
        subs' <- St.reduce (filterTask taskId searchTitle) subs [] ;;
        St.ret (acc ++ [with_subtasks task (Some subs')])
    | None => St.ret (acc ++ [task])
    end.

Definition filterList (taskId searchTitle : option string)
           (tasks : list Task) : St.M nat (list Task) :=
  St.reduce (filterTask taskId searchTitle) tasks [].

(** Returns [(updatedTasks, removedCount)]. *)
Definition findAndRemoveRecursive (tasks : list Task)
           (taskId searchTitle : option string) : list Task * nat :=
  filterList taskId searchTitle tasks 0.

(** *** updateStatusRecursive

    The signature declares [taskId: string], but the only caller passes
    a field of [args: any], so at run time the value may be [undefined]
    ([None]), which [===] equates with no id. *)

(** The callback of [list.map] inside [updateList]; the state is the
    variable [found]. *)
Fixpoint updateTask (taskId : option string) (completed : bool)
         (task : Task) : St.M bool Task :=
  if JS.strict_eq (id task) taskId then
    _ <- St.put true ;;
    St.ret (with_isCompleted task completed)
  else
    match subtasks task with
    | Some subs =>
        subs' <- St.map (updateTask taskId completed) subs ;;
        St.ret (with_subtasks task (Some subs'))
    | None => St.ret task
    end.

Definition updateList (taskId : option string) (completed : bool)
  : list Task -> St.M bool (list Task) :=
  St.map (updateTask taskId completed).

(** Returns [(updatedTasks, found)]. *)
Definition updateStatusRecursive (tasks : list Task) (taskId : option string)
           (completed : bool) : list Task * bool :=
  updateList taskId completed tasks false.

End Engine.

(** ** The tool dispatch layer (App.tsx, geminiService.ts) *)

(** The [args] object of a function call.  It arrives as [any]; the
    fields are the ones the tools destructure.  A field that is stored in
    a [Task] or dereferenced by the engine ([title], [parentQuery],
    [completed]) is taken at its TypeScript type; a field that is only
    tested for truthiness, compared with [===] or printed may be absent
    ([None] is [undefined]).  Nothing restricts [priority] to the values
    of the enum.  A call that lacks [title], [parentQuery] or [completed]
    is therefore not an [Args.t]: the source would store [undefined] in a
    field of a [Task] or, for [parentQuery], throw inside the updater, and
    nothing below speaks about such calls. *)
Module Args.
Record t : Type := mk {
  title : string;
  priority : option string;
  parentQuery : string;
  taskId : option string;
  searchTitle : option string;
  completed : bool
}.
End Args.

Module FunctionCall.
Record t : Type := mk {
  name : string;
  args : Args.t;
  id : option string
}.
End FunctionCall.

(** The projection [executeGetTasks] builds for the model. *)
Inductive SimpleTask : Type := mkSimpleTask {
  simple_id : string;
  simple_title : string;
  simple_priority : Priority;
  simple_completed : bool;
  simple_subtasks : list SimpleTask
}.

(** What a tool returns: [{ result: ... }], [{ tasks: ... }] or
    [{ error: ... }]. *)
Inductive ToolResult : Type :=
| Result (result : string)
| Tasks (tasks : list SimpleTask)
| Error (error : string).

(** An entry of [responseParts]; [response] holds the [toolResult] that
    the source wraps as [{ result: toolResult }]. *)
Module FunctionResponse.
Record t : Type := mk {
  name : string;
  response : ToolResult;
  id : option string
}.
End FunctionResponse.

(** The part of the [App] component a running [handleSendMessage] can
    see: [tasks] is the constant bound by the render that created the
    handler, [tasksState] the state cell behind [setTasks].  A render
    re-binds [tasks] for the handlers it creates; the handler that is
    running keeps the binding it closed over. *)
Record Component : Type := mkComponent {
  tasks : list Task;
  tasksState : list Task
}.

(** [setTasks(prev => u(prev))]: React hands every functional updater the
    state left by the updaters queued before it. *)
Definition setTasks (u : list Task -> list Task) : St.M Component unit :=
  fun c => (tt, mkComponent (tasks c) (u (tasksState c))).

(** [(priority as Priority) || Priority.MEDIUM]: the cast has no run-time
    effect. *)
Definition priority_or_medium (p : option string) : Priority :=
  match p with
  | Some s => if JS.truthy p then s else PriorityEnum.MEDIUM
  | None => PriorityEnum.MEDIUM
  end.

(** The callback of [list.map] inside [simplify]. *)
Fixpoint simplifyTask (t : Task) : SimpleTask :=
  mkSimpleTask (id t) (title t) (priority t) (isCompleted t)
    match subtasks t with
    | Some subs => List.map simplifyTask subs
    | None => []
    end.

Definition simplify (l : list Task) : list SimpleTask :=
  List.map simplifyTask l.

Definition executeGetTasks (currentTasks : list Task) : ToolResult :=
  Tasks (simplify currentTasks).

Section Dispatch.

Variable toLowerCase : string -> string.

(** The environment during the [n]-th iteration of the tool loop:
    [generateId n] and [now n] are what [generateId()] (of [types.ts],
    a string drawn from [Math.random()]) and [Date.now()] return there;
    [eager n]
    tells whether React has run the updater passed to [setTasks] by the
    time [setTasks] returns (it does so only when no other update is
    pending, and otherwise leaves the updater for the next render). *)
Variable generateId : nat -> string.
Variable now : nat -> Z.
Variable eager : nat -> bool.

Definition executeAddTask (n : nat) (args : Args.t) : St.M Component ToolResult :=
  let newTask :=
    mkTask (generateId n) (Args.title args) false
           (priority_or_medium (Args.priority args)) (now n) (Some []) in
  _ <- setTasks (fun prev => newTask :: prev) ;;
  St.ret (Result ("Task added successfully with ID: " ++ id newTask)).

Definition executeAddSubtask (n : nat) (args : Args.t) : St.M Component ToolResult :=
  let parentQuery := Args.parentQuery args in
  let title := Args.title args in
  let newSubtask :=
    mkTask (generateId n) title false
           (priority_or_medium (Args.priority args)) (now n) (Some []) in
  c <- St.get ;;
  (* [success] is written by the updater: it is still [false] when the
     updater has not run yet. *)
  let success :=
    eager n && snd (addSubtaskRecursive toLowerCase (tasksState c) parentQuery newSubtask) in
  _ <- setTasks (fun prev =>
         fst (addSubtaskRecursive toLowerCase prev parentQuery newSubtask)) ;;
  if success
  then St.ret (Result ("Subtask '" ++ title ++ "' added to parent matching '"
                         ++ parentQuery ++ "'."))
  else St.ret (Result ("Could not find a parent task matching '" ++ parentQuery
                         ++ "' to add the subtask to.")).

Definition executeRemoveTask (n : nat) (args : Args.t) : St.M Component ToolResult :=
  let taskId := Args.taskId args in
  let searchTitle := Args.searchTitle args in
  c <- St.get ;;
  let removedCount :=
    if eager n
    then snd (findAndRemoveRecursive toLowerCase (tasksState c) taskId searchTitle)
    else 0 in
  _ <- setTasks (fun prev =>
         fst (findAndRemoveRecursive toLowerCase prev taskId searchTitle)) ;;
  if (0 <? removedCount)%nat
  then St.ret (Result ("Successfully removed " ++ JS.show_nat removedCount
                         ++ " task(s)."))
  else St.ret (Result "No tasks found matching that criteria.").

Definition executeUpdateTaskStatus (n : nat) (args : Args.t) : St.M Component ToolResult :=
  let taskId := Args.taskId args in
  let completed := Args.completed args in
  c <- St.get ;;
  let found :=
    eager n && snd (updateStatusRecursive (tasksState c) taskId completed) in
  _ <- setTasks (fun prev => fst (updateStatusRecursive prev taskId completed)) ;;
  if found
  then St.ret (Result ("Task " ++ JS.show taskId ++ " marked as "
                         ++ (if completed then "completed" else "incomplete")
                         ++ "."))
  else St.ret (Result ("Task with ID " ++ JS.show taskId ++ " not found.")).

(** The body of [for (const call of functionCalls)]. *)
Definition dispatch (n : nat) (call : FunctionCall.t) : St.M Component ToolResult :=
  let name := FunctionCall.name call in
  let args := FunctionCall.args call in
  if name =? "addTask" then executeAddTask n args
  else if name =? "addSubtask" then executeAddSubtask n args
  else if name =? "removeTask" then executeRemoveTask n args
  else if name =? "updateTaskStatus" then executeUpdateTaskStatus n args
  else if name =? "getTasks" then
    c <- St.get ;; St.ret (executeGetTasks (tasks c))
  else St.ret (Error "Unknown tool").

(** The tool loop of [handleSendMessage], from iteration [n] on; the
    result is [responseParts]. *)
Fixpoint toolLoop (n : nat) (functionCalls : list FunctionCall.t)
  : St.M Component (list FunctionResponse.t) :=
  match functionCalls with
  | [] => St.ret []
  | call :: rest =>
      toolResult <- dispatch n call ;;
      responseParts <- toolLoop (S n) rest ;;
      St.ret (FunctionResponse.mk (FunctionCall.name call) toolResult
                                  (FunctionCall.id call) :: responseParts)
  end.

End Dispatch.

(** ** Observations on forests

    A forest is read off as the list of its nodes in depth-first order,
    parents before children, siblings in order; each node comes with its
    depth and without its children ([Some []] records that it has a
    [subtasks] array, [None] that it has none). *)

Definition children (t : Task) : list Task :=
  match subtasks t with
  | Some subs => subs
  | None => []
  end.

Definition alone (t : Task) : Task :=
  with_subtasks t (match subtasks t with Some _ => Some [] | None => None end).

Definition Row : Type := nat * Task.

Fixpoint rowsTask (d : nat) (t : Task) : list Row :=
  (d, alone t)
  :: match subtasks t with
     | Some subs => flat_map (rowsTask (S d)) subs
     | None => []
     end.

Definition rows (d : nat) (l : list Task) : list Row :=
  flat_map (rowsTask d) l.

(** The ids that occur in a forest, at any depth. *)
Definition ids (l : list Task) : list string :=
  List.map (fun r : Row => id (snd r)) (rows 0 l).

(** [rest] is empty or starts with a row above depth [d]. *)
Definition shallower (d : nat) (rest : list Row) : Prop :=
  match rest with
  | [] => True
  | r :: _ => fst r < d
  end.

(** The rows below the row that precedes [post], and the rows after
    them: the descendants of a node at depth [d] are the rows that follow
    it for as long as they are deeper than [d]. *)
Fixpoint below (d : nat) (post : list Row) : list Row :=
  match post with
  | [] => []
  | r :: post' => if (d <? fst r)%nat then r :: below d post' else []
  end.

Fixpoint beyond (d : nat) (post : list Row) : list Row :=
  match post with
  | [] => []
  | r :: post' => if (d <? fst r)%nat then beyond d post' else post
  end.

(** Every row of a forest together with a flag telling whether a proper
    ancestor of the node satisfies [p]. *)
Fixpoint marksTask (p : Task -> bool) (anc : bool) (d : nat) (t : Task)
  : list (Row * bool) :=
  ((d, alone t), anc)
  :: match subtasks t with
     | Some subs => flat_map (marksTask p (anc || p t) (S d)) subs
     | None => []
     end.

Definition marks (p : Task -> bool) (anc : bool) (d : nat) (l : list Task)
  : list (Row * bool) :=
  flat_map (marksTask p anc d) l.

(** A node is a top-level match when it satisfies [p] and no proper
    ancestor does; it is kept when neither it nor an ancestor does. *)
Definition top_match (p : Task -> bool) (x : Row * bool) : bool :=
  negb (snd x) && p (snd (fst x)).

Definition kept (p : Task -> bool) (x : Row * bool) : bool :=
  negb (snd x) && negb (p (snd (fst x))).

(** ** The declared parameter schema (geminiService.ts) *)

Definition priority_enum : list string := ["low"; "medium"; "high"].

(** The names of [taskTools]. *)
Definition catalogue : list string :=
  ["addTask"; "addSubtask"; "removeTask"; "updateTaskStatus"; "getTasks"].

(** Whether a call meets the schema declared for its tool, as far as the
    typed [Args.t] leaves it open: a [priority], when given, is one of
    the enum values, and [updateTaskStatus] has its required [taskId]. *)
Definition meets_schema (call : FunctionCall.t) : bool :=
  let name := FunctionCall.name call in
  let args := FunctionCall.args call in
  let priority_ok :=
    match Args.priority args with
    | Some p => existsb (String.eqb p) priority_enum
    | None => true
    end in
  if name =? "addTask" then priority_ok
  else if name =? "addSubtask" then priority_ok
  else if name =? "updateTaskStatus" then
    match Args.taskId args with Some _ => true | None => false end
  else true.

Definition is_error (r : ToolResult) : bool :=
  match r with
  | Error _ => true
  | _ => false
  end.

(** ** The forest of the specification's scenarios

    The default forest of [App]: one task with one subtask and one
    standalone completed task; the ids are those of scenarios A to D. *)

Definition scenario_forest : list Task :=
  [ mkTask "1" "Review project requirements" false PriorityEnum.HIGH 0
      (Some [ mkTask "2" "Check email specs" false PriorityEnum.MEDIUM 0 None ]);
    mkTask "3" "Buy coffee beans" true PriorityEnum.LOW 0 None ].

(** The new task of scenario A. *)
Definition read_documentation : Task :=
  mkTask "4" "Read documentation" false PriorityEnum.MEDIUM 0 (Some []).

(** A sample environment for the tool loop: the [n]-th id is ["t"]
    followed by [n], the clock shows [n], and no updater runs early. *)
Definition sample_generateId (n : nat) : string := ("t" ++ JS.show_nat n)%string.
Definition sample_now (n : nat) : Z := Z.of_nat n.
Definition sample_eager (_ : nat) : bool := false.

Definition call_of (name : string) (args : Args.t) : FunctionCall.t :=
  FunctionCall.mk name args None.

Definition no_args : Args.t := Args.mk "" None "" None None false.

(** [addTask({ title: "X" })], [addTask({ title: "X", priority: "urgent" })],
    [updateTaskStatus({})] and [getTasks({})]. *)
Definition add_X : FunctionCall.t :=
  call_of "addTask" (Args.mk "X" None "" None None false).
Definition add_urgent_X : FunctionCall.t :=
  call_of "addTask" (Args.mk "X" (Some "urgent") "" None None false).
Definition update_nothing : FunctionCall.t := call_of "updateTaskStatus" no_args.
Definition get_tasks : FunctionCall.t := call_of "getTasks" no_args.


(** ** The rest of the component (App.tsx, types.ts) *)

(** The nodes of a projection in depth-first order, each with its depth
    and the four fields that [simplify] copies. *)
Definition SimpleRow : Type := nat * (string * string * Priority * bool).

Fixpoint simpleRowsTask (d : nat) (s : SimpleTask) : list SimpleRow :=
  (d, (simple_id s, simple_title s, simple_priority s, simple_completed s))
  :: flat_map (simpleRowsTask (S d)) (simple_subtasks s).

Definition simpleRows (d : nat) (l : list SimpleTask) : list SimpleRow :=
  flat_map (simpleRowsTask d) l.

Definition simpleRow (r : Row) : SimpleRow :=
  (fst r, (id (snd r), title (snd r), priority (snd r), isCompleted (snd r))).

(** [Array.prototype.sort(compareFn)].  The language requires the sort to
    be stable, and with a comparator that orders by a key the stable
    sorted arrangement is unique; it is computed here by insertion.
    [compareFn a b <= 0] keeps [a] before [b]. *)
Module Array.

Fixpoint insert {A} (compareFn : A -> A -> Z) (x : A) (sorted : list A) : list A :=
  match sorted with
  | [] => [x]
  | y :: rest =>
      if (compareFn x y <=? 0)%Z then x :: sorted
      else y :: insert compareFn x rest
  end.

Fixpoint sort {A} (compareFn : A -> A -> Z) (l : list A) : list A :=
  match l with
  | [] => []
  | x :: rest => insert compareFn x (sort compareFn rest)
  end.

End Array.

(** [Number(b)] for a boolean. *)
Definition Number (b : bool) : Z := if b then 1%Z else 0%Z.

(** The comparators of the render. *)
Definition newestFirst (a b : Task) : Z := (createdAt b - createdAt a)%Z.
Definition completedLast (a b : Task) : Z :=
  (Number (isCompleted a) - Number (isCompleted b))%Z.

(** [a] is at least as new as [b]; [a] may be listed before [b]: it is
    not completed while [b] is, or the two agree on completion and [a] is
    at least as new.  [sameGroup k c] selects the tasks created at [k]
    whose completion is [c]. *)
Definition notOlder (a b : Task) : Prop := (createdAt b <= createdAt a)%Z.

Definition listedBefore (a b : Task) : Prop :=
  (isCompleted a = false /\ isCompleted b = true)
  \/ (isCompleted a = isCompleted b /\ notOlder a b).

Definition sameGroup (k : Z) (c : bool) (t : Task) : bool :=
  (createdAt t =? k)%Z && Bool.eqb (isCompleted t) c.

(** The order in which the render lists the top-level tasks:
    [tasks.sort(newestFirst).sort(completedLast).map(...)].  Both sorts
    work in place, so this is also the order they leave the array in. *)
Definition renderedTasks (tasks : list Task) : list Task :=
  Array.sort completedLast (Array.sort newestFirst tasks).

(** [enum Sender] and [interface ChatMessage] of [types.ts]; the optional
    [isToolLog], which no code sets or reads, is left out. *)
Inductive Sender : Type := USER | AI | SYSTEM.

Module ChatMessage.
Record t : Type := mk {
  id : string;
  text : string;
  sender : Sender;
  timestamp : Z
}.
End ChatMessage.

(** What [sendMessage] resolves to, as far as the handler reads it:
    [result.functionCalls] (possibly [undefined]) and [result.text]. *)
Module Response.
Record t : Type := mk {
  functionCalls : option (list FunctionCall.t);
  text : string
}.
End Response.

(** The state of [App] that [handleSendMessage] reads and writes:
    [session] tells whether [chatSessionRef.current] is set. *)
Record App : Type := mkApp {
  input : string;
  isLoading : bool;
  session : bool;
  messages : list ChatMessage.t;
  component : Component
}.

Definition apology : string :=
  "Sorry, I encountered an error processing that request. Please try again.".

Section Conversation.

Variable toLowerCase : string -> string.
Variable generateId : nat -> string.
Variable now : nat -> Z.
Variable eager : nat -> bool.

(** [String.prototype.trim]. *)
Variable trim : string -> string.

(** The id and the time stamp a message gets when it is appended at
    position [k] of the history ([generateId()] and [Date.now()] inside
    the updater passed to [setMessages]). *)
Variable messageId : nat -> string.
Variable messageTime : nat -> Z.

(** The model: what [sendMessage({ message: userText })] resolves to, and
    what [sendMessage(responseParts)] resolves to after it; [None] is a
    rejected promise. *)
Variable reply : string -> option Response.t.
Variable followUp : string -> list FunctionResponse.t -> option Response.t.

(** [setMessages(prev => [...prev, { id: generateId(), text, sender,
    timestamp: Date.now() }])]. *)
Definition appendMessage (text : string) (sender : Sender) : St.M App unit :=
  fun a =>
    let k := List.length (messages a) in
    (tt, mkApp (input a) (isLoading a) (session a)
               (messages a ++ [ChatMessage.mk (messageId k) text sender (messageTime k)])
               (component a)).

(** A tool runs on the [tasks] cell of the component. *)
Definition onComponent {A} (m : St.M Component A) : St.M App A :=
  fun a =>
    let (x, c) := m (component a) in
    (x, mkApp (input a) (isLoading a) (session a) (messages a) c).

(** [for (const call of functionCalls)], with the log message that each
    iteration appends before it dispatches. *)
Fixpoint loggedToolLoop (n : nat) (functionCalls : list FunctionCall.t)
  : St.M App (list FunctionResponse.t) :=
  match functionCalls with
  | [] => St.ret []
  | call :: rest =>
      _ <- appendMessage ("Executing: " ++ FunctionCall.name call ++ "...") SYSTEM ;;
      toolResult <- onComponent (dispatch toLowerCase generateId now eager n call) ;;
      responseParts <- loggedToolLoop (S n) rest ;;
      St.ret (FunctionResponse.mk (FunctionCall.name call) toolResult
                                  (FunctionCall.id call) :: responseParts)
  end.

(** The body of [try], after the user's message has been appended: the
    result is [None] when a [sendMessage] is rejected, with the state as
    it is at that point. *)
Definition tryRound (userText : string) (a : App) : option unit * App :=
  match reply userText with
  | None => (None, a)
  | Some result =>
      match Response.functionCalls result with
      | Some (call :: rest) =>
          let (responseParts, a1) := loggedToolLoop 0 (call :: rest) a in
          match followUp userText responseParts with
          | None => (None, a1)
          | Some result' => (Some tt, snd (appendMessage (Response.text result') AI a1))
          end
      | _ => (Some tt, snd (appendMessage (Response.text result) AI a))
      end
  end.

(** [handleSendMessage], from the submission to the end of [finally],
    with no other event in between.  The renders that run while the
    handler awaits the model are not modelled: they sort the array of the
    [tasks] cell in place, so the [component] of the result gives the
    tasks as the updaters of the round leave them, not in the order the
    component holds them afterwards.  The input, the loading flag and the
    history do not depend on that order. *)
Definition handleSendMessage (a : App) : App :=
  if (trim (input a) =? "") || negb (session a) || isLoading a then a
  else
    let userText := input a in
    let a1 := mkApp "" true (session a) (messages a) (component a) in
    let a2 := snd (appendMessage userText USER a1) in
    let a3 :=
      match tryRound userText a2 with
      | (Some _, a') => a'
      | (None, a') => snd (appendMessage apology AI a')
      end in
    mkApp (input a3) false (session a3) (messages a3) (component a3).

End Conversation.

(** What the conversation shows of a message. *)
Definition shown (m : ChatMessage.t) : Sender * string :=
  (ChatMessage.sender m, ChatMessage.text m).

(** The calls of the first reply, which are the ones the round runs. *)
Definition callsOf (r : option Response.t) : list FunctionCall.t :=
  match r with
  | Some result =>
      match Response.functionCalls result with
      | Some calls => calls
      | None => []
      end
  | None => []
  end.

(** A row with its completion flag blanked. *)
Definition flagless (r : Row) : Row := (fst r, with_isCompleted (snd r) false).

(** The log line of an invocation. *)
Definition logLine (call : FunctionCall.t) : Sender * string :=
  (SYSTEM, ("Executing: " ++ FunctionCall.name call ++ "...")%string).

(** A sample round: the user asks for a task, the model answers with
    [addTask({ title: "X" })], and the follow-up request fails. *)
Definition sample_trim (s : string) : string := s.
Definition sample_messageId (k : nat) : string := ("m" ++ JS.show_nat k)%string.
Definition sample_reply (_ : string) : option Response.t :=
  Some (Response.mk (Some [add_X]) "").
Definition sample_followUp (_ : string) (_ : list FunctionResponse.t)
  : option Response.t := None.
Definition sample_app : App :=
  mkApp "add X" false true [] (mkComponent scenario_forest scenario_forest).

(** * Properties *)

(** ** Induction on forests *)

Section ForestInd.

Variable P : list Task -> Prop.
Hypothesis P_nil : P [].
Hypothesis P_cons :
  forall t ts,
    (forall subs, subtasks t = Some subs -> P subs) -> P ts -> P (t :: ts).

Fixpoint subtasks_ind (t : Task) : forall subs, subtasks t = Some subs -> P subs.
Proof.
  destruct t as [i ti c p ca [subs0|]]; simpl; intros subs E.
  - injection E as <-.
    induction subs0 as [|x r IH].
    + exact P_nil.
    + exact (P_cons x r (subtasks_ind x) IH).
  - discriminate E.
Defined.

Lemma forest_ind : forall l, P l.
Proof.
  induction l as [|t ts IH].
  - exact P_nil.
  - exact (P_cons t ts (subtasks_ind t) IH).
Qed.

End ForestInd.

(** ** Equations of the definitions *)

Arguments rows : simpl never.
Arguments ids : simpl never.
Arguments marks : simpl never.
Arguments updateInfo : simpl never.
Arguments updateList : simpl never.
Arguments filterList : simpl never.

Lemma with_subtasks_same (t : Task) : with_subtasks t (subtasks t) = t.
Proof. destruct t; reflexivity. Qed.

Lemma rows_cons d t ts :
  rows d (t :: ts) = (d, alone t) :: rows (S d) (children t) ++ rows d ts.
Proof.
  destruct t as [i ti c p ca [subs|]]; reflexivity.
Qed.

Lemma rows_app d l1 l2 : rows d (l1 ++ l2) = rows d l1 ++ rows d l2.
Proof. unfold rows. apply flat_map_app. Qed.

Lemma ids_rows d l : List.map (fun r : Row => id (snd r)) (rows d l) = ids l.
Proof.
  revert d. induction l as [|t ts IHsub IHts] using forest_ind; intros d.
  - reflexivity.
  - unfold ids. rewrite !rows_cons. simpl. rewrite !map_app.
    fold (ids ts). rewrite IHts. f_equal. f_equal.
    unfold children. destruct (subtasks t) as [subs|] eqn:E; [|reflexivity].
    rewrite (IHsub subs eq_refl (S d)), (IHsub subs eq_refl 1). reflexivity.
Qed.

Lemma ids_cons t ts : ids (t :: ts) = id t :: ids (children t) ++ ids ts.
Proof.
  unfold ids at 1. rewrite rows_cons. simpl. rewrite map_app.
  rewrite ids_rows. fold (ids ts). destruct t; reflexivity.
Qed.

Lemma toggleTask_eq id0 t :
  toggleTask id0 t =
  if id t =? id0 then with_isCompleted t (negb (isCompleted t))
  else match subtasks t with
       | Some subs => with_subtasks t (Some (toggleTaskRecursive subs id0))
       | None => t
       end.
Proof. destruct t; reflexivity. Qed.

(** [deleteTask] is the callback of the source: the local loop is
    [filter] followed by [map]. *)
Lemma deleteTask_eq id0 t :
  deleteTask id0 t =
  with_subtasks t
    match subtasks t with
    | Some subs => Some (deleteTaskRecursive subs id0)
    | None => None
    end.
Proof.
  destruct t as [i ti c p ca [subs|]]; [|reflexivity].
  simpl. unfold with_subtasks; simpl. do 2 f_equal.
  unfold deleteTaskRecursive.
  induction subs as [|x r IH]; [reflexivity|].
  simpl. destruct (negb (id x =? id0)); simpl; rewrite IH; reflexivity.
Qed.

Lemma deleteTaskRecursive_cons t ts id0 :
  deleteTaskRecursive (t :: ts) id0 =
  if id t =? id0 then deleteTaskRecursive ts id0
  else deleteTask id0 t :: deleteTaskRecursive ts id0.
Proof.
  unfold deleteTaskRecursive. simpl. destruct (id t =? id0); reflexivity.
Qed.

Lemma map_state_cons {S A B} (f : A -> St.M S B) x r s :
  St.map f (x :: r) s =
  let (y, s1) := f x s in
  let (ys, s2) := St.map f r s1 in (y :: ys, s2).
Proof.
  simpl. unfold St.bind. destruct (f x s) as [y s1].
  destruct (St.map f r s1); reflexivity.
Qed.

Lemma updateTask_eq taskId completed t found :
  updateTask taskId completed t found =
  if JS.strict_eq (id t) taskId then (with_isCompleted t completed, true)
  else match subtasks t with
       | Some subs =>
           let (subs', found') := updateList taskId completed subs found in
           (with_subtasks t (Some subs'), found')
       | None => (t, found)
       end.
Proof.
  destruct t as [i ti c p ca [subs|]]; simpl;
    destruct (JS.strict_eq i taskId); reflexivity.
Qed.

Lemma updateList_cons taskId completed t ts found :
  updateList taskId completed (t :: ts) found =
  let (t', f1) := updateTask taskId completed t found in
  let (ts', f2) := updateList taskId completed ts f1 in (t' :: ts', f2).
Proof. apply map_state_cons. Qed.

(** ** Absent ids *)

Lemma toggle_absent id0 :
  forall l, ~ In id0 (ids l) -> toggleTaskRecursive l id0 = l.
Proof.
  induction l as [|t ts IHsub IHts] using forest_ind; intros H.
  - reflexivity.
  - rewrite ids_cons in H. simpl in H. rewrite in_app_iff in H.
    unfold toggleTaskRecursive; simpl. fold (toggleTaskRecursive ts id0).
    rewrite IHts by tauto. f_equal.
    rewrite toggleTask_eq.
    destruct (id t =? id0) eqn:E.
    + apply String.eqb_eq in E. tauto.
    + unfold children in H. destruct (subtasks t) as [subs|] eqn:Es; [|reflexivity].
      rewrite (IHsub subs eq_refl) by tauto.
      rewrite <- Es. apply with_subtasks_same.
Qed.

Lemma delete_absent id0 :
  forall l, ~ In id0 (ids l) -> deleteTaskRecursive l id0 = l.
Proof.
  induction l as [|t ts IHsub IHts] using forest_ind; intros H.
  - reflexivity.
  - rewrite ids_cons in H. simpl in H. rewrite in_app_iff in H.
    rewrite deleteTaskRecursive_cons.
    destruct (id t =? id0) eqn:E.
    + apply String.eqb_eq in E. tauto.
    + rewrite IHts by tauto. f_equal.
      rewrite deleteTask_eq.
      unfold children in H. destruct (subtasks t) as [subs|] eqn:Es.
      * rewrite (IHsub subs eq_refl) by tauto.
        rewrite <- Es. apply with_subtasks_same.
      * rewrite <- Es. apply with_subtasks_same.
Qed.

Lemma updateList_absent id0 completed :
  forall l found,
    ~ In id0 (ids l) -> updateList (Some id0) completed l found = (l, found).
Proof.
  induction l as [|t ts IHsub IHts] using forest_ind; intros found H.
  - reflexivity.
  - rewrite ids_cons in H. simpl in H. rewrite in_app_iff in H.
    rewrite updateList_cons, updateTask_eq. simpl.
    destruct (id t =? id0) eqn:E.
    + apply String.eqb_eq in E. tauto.
    + unfold children in H. destruct (subtasks t) as [subs|] eqn:Es.
      * rewrite (IHsub subs eq_refl) by tauto.
        rewrite IHts by tauto.
        rewrite <- Es, with_subtasks_same. reflexivity.
      * rewrite IHts by tauto. reflexivity.
Qed.

Lemma delete_removes id0 :
  forall l, ~ In id0 (ids (deleteTaskRecursive l id0)).
Proof.
  induction l as [|t ts IHsub IHts] using forest_ind.
  - intros [].
  - rewrite deleteTaskRecursive_cons.
    destruct (id t =? id0) eqn:E; [exact IHts|].
    rewrite ids_cons. simpl. rewrite in_app_iff.
    rewrite deleteTask_eq. unfold children. simpl.
    apply String.eqb_neq in E.
    intros [H|[H|H]].
    + destruct t; simpl in *; congruence.
    + destruct (subtasks t) as [subs|] eqn:Es; simpl in H; [|exact H].
      exact (IHsub subs eq_refl H).
    + exact (IHts H).
Qed.

(** C6. For a forest [F] and an id that occurs nowhere in [F], toggling
    and deleting return [F] itself, and setting the completion flag
    returns [F] together with [found = false]. *)
Theorem absent_id_is_noop (F : list Task) (id0 : string) (b : bool) :
  ~ In id0 (ids F) ->
  toggleTaskRecursive F id0 = F
  /\ deleteTaskRecursive F id0 = F
  /\ updateStatusRecursive F (Some id0) b = (F, false).
Proof.
  intros H. split; [|split].
  - apply toggle_absent, H.
  - apply delete_absent, H.
  - apply updateList_absent, H.
Qed.

(** C8. Deleting twice by the same id is deleting once. *)
Theorem deleteTaskRecursive_idempotent (F : list Task) (id0 : string) :
  deleteTaskRecursive (deleteTaskRecursive F id0) id0 = deleteTaskRecursive F id0.
Proof. apply delete_absent, delete_removes. Qed.

(** ** Setting the completion flag *)

Lemma alone_with_isCompleted t b :
  alone (with_isCompleted t b) = with_isCompleted (alone t) b.
Proof. destruct t; reflexivity. Qed.

Lemma alone_with_subtasks t subs subs' :
  subtasks t = Some subs -> alone (with_subtasks t (Some subs')) = alone t.
Proof. destruct t; simpl; intros ->; reflexivity. Qed.

Lemma children_Some t subs : subtasks t = Some subs -> children t = subs.
Proof. unfold children; intros ->; reflexivity. Qed.

Lemma children_None t : subtasks t = None -> children t = [].
Proof. unfold children; intros ->; reflexivity. Qed.

Lemma updateList_once id0 b :
  forall l d found,
    count_occ string_dec (ids l) id0 = 1 ->
    exists l' pre k n post,
      updateList (Some id0) b l found = (l', true)
      /\ rows d l = pre ++ (k, n) :: post
      /\ id n = id0
      /\ rows d l' = pre ++ (k, with_isCompleted n b) :: post.
Proof.
  induction l as [|t ts IHsub IHts] using forest_ind; intros d found H.
  - discriminate H.
  - rewrite ids_cons in H.
    rewrite updateList_cons, updateTask_eq. simpl.
    destruct (string_dec (id t) id0) as [E|E].
    + (* the head is the node *)
      rewrite count_occ_cons_eq, count_occ_app in H by assumption.
      assert (Hc : ~ In id0 (ids (children t)))
        by (apply (count_occ_not_In string_dec); lia).
      assert (Ht : ~ In id0 (ids ts))
        by (apply (count_occ_not_In string_dec); lia).
      rewrite (proj2 (String.eqb_eq _ _) E).
      rewrite (updateList_absent id0 b ts true Ht).
      exists (with_isCompleted t b :: ts), [], d, (alone t),
             (rows (S d) (children t) ++ rows d ts).
      split; [reflexivity|]. split; [apply rows_cons|].
      split; [destruct t; exact E|].
      rewrite rows_cons, alone_with_isCompleted. destruct t; reflexivity.
    + rewrite count_occ_cons_neq, count_occ_app in H by assumption.
      rewrite (proj2 (String.eqb_neq _ _) E).
      destruct (In_dec string_dec id0 (ids ts)) as [Hin|Hout].
      * (* the node is in a later tree *)
        assert (Hts : count_occ string_dec (ids ts) id0 > 0)
          by (apply count_occ_In; exact Hin).
        assert (Hc : ~ In id0 (ids (children t)))
          by (apply (count_occ_not_In string_dec); lia).
        assert (H1 : count_occ string_dec (ids ts) id0 = 1) by lia.
        destruct (IHts d found H1) as (l' & pre & k & n & post & Hu & Hr & Hn & Hr').
        exists (t :: l'), ((d, alone t) :: rows (S d) (children t) ++ pre), k, n, post.
        split.
        { destruct (subtasks t) as [subs|] eqn:Es.
          - rewrite (children_Some _ _ Es) in Hc.
            rewrite (updateList_absent id0 b subs found Hc), Hu.
            rewrite <- Es, with_subtasks_same. reflexivity.
          - rewrite Hu. reflexivity. }
        rewrite !rows_cons, Hr, Hr'. simpl. rewrite <- !app_assoc.
        repeat split; assumption.
      * (* the node is below the head *)
        assert (Hts : count_occ string_dec (ids ts) id0 = 0)
          by (apply count_occ_not_In; exact Hout).
        assert (H1 : count_occ string_dec (ids (children t)) id0 = 1) by lia.
        destruct (subtasks t) as [subs|] eqn:Es.
        2:{ rewrite (children_None _ Es) in H1. discriminate H1. }
        rewrite (children_Some _ _ Es) in H1.
        destruct (IHsub subs eq_refl (S d) found H1)
          as (l' & pre & k & n & post & Hu & Hr & Hn & Hr').
        exists (with_subtasks t (Some l') :: ts), ((d, alone t) :: pre), k, n,
               (post ++ rows d ts).
        rewrite Hu, (updateList_absent id0 b ts true Hout).
        split; [reflexivity|].
        rewrite !rows_cons, (children_Some _ _ Es), (alone_with_subtasks _ _ l' Es).
        assert (Hc' : children (with_subtasks t (Some l')) = l') by reflexivity.
        rewrite Hc', Hr, Hr'. simpl. rewrite <- !app_assoc.
        repeat split; assumption.
Qed.

Lemma with_isCompleted_fields t b :
  isCompleted (with_isCompleted t b) = b
  /\ id (with_isCompleted t b) = id t
  /\ title (with_isCompleted t b) = title t
  /\ priority (with_isCompleted t b) = priority t
  /\ createdAt (with_isCompleted t b) = createdAt t
  /\ subtasks (with_isCompleted t b) = subtasks t.
Proof. destruct t. repeat split. Qed.

(** C7. When the id occurs on exactly one node of the forest,
    [updateStatusRecursive] reports [found = true] and returns a forest
    with the same rows but for the row of that node: there [isCompleted]
    is the given value, and the id, the title, the priority, the time
    stamp and the subtasks marker are what they were. *)
Theorem updateStatusRecursive_frame (F : list Task) (id0 : string) (b : bool) :
  count_occ string_dec (ids F) id0 = 1 ->
  exists F' pre d n n' post,
    updateStatusRecursive F (Some id0) b = (F', true)
    /\ rows 0 F = pre ++ (d, n) :: post
    /\ id n = id0
    /\ rows 0 F' = pre ++ (d, n') :: post
    /\ isCompleted n' = b
    /\ id n' = id n
    /\ title n' = title n
    /\ priority n' = priority n
    /\ createdAt n' = createdAt n
    /\ subtasks n' = subtasks n.
Proof.
  intros H.
  destruct (updateList_once id0 b F 0 false H)
    as (F' & pre & d & n & post & Hu & Hr & Hn & Hr').
  exists F', pre, d, n, (with_isCompleted n b), post.
  split; [exact Hu|]. split; [exact Hr|]. split; [exact Hn|].
  split; [exact Hr'|]. apply with_isCompleted_fields.
Qed.

(** ** The rows determine the forest *)

Lemma shallower_rows d ts rest :
  shallower d rest -> shallower (S d) (rows d ts ++ rest).
Proof.
  destruct ts as [|t ts].
  - destruct rest; simpl; [trivial|lia].
  - rewrite rows_cons. simpl. lia.
Qed.

Lemma alone_eq t g :
  alone t = alone g ->
  id t = id g /\ title t = title g /\ isCompleted t = isCompleted g
  /\ priority t = priority g /\ createdAt t = createdAt g
  /\ (subtasks t = None <-> subtasks g = None).
Proof.
  destruct t as [i1 t1 c1 p1 a1 [s1|]], g as [i2 t2 c2 p2 a2 [s2|]];
    unfold alone; simpl; intros H; injection H as -> -> -> -> ->;
    repeat split; intros; congruence.
Qed.

Lemma rows_inj_gen :
  forall F d G restF restG,
    shallower d restF -> shallower d restG ->
    rows d F ++ restF = rows d G ++ restG ->
    F = G /\ restF = restG.
Proof.
  induction F as [|t ts IHsub IHts] using forest_ind;
    intros d G restF restG HF HG H.
  - destruct G as [|g gs]; [split; [reflexivity|exact H]|].
    rewrite rows_cons in H. simpl in H. subst restF. simpl in HF. lia.
  - destruct G as [|g gs].
    { rewrite rows_cons in H. simpl in H. subst restG. simpl in HG. lia. }
    rewrite !rows_cons in H. simpl in H. rewrite <- !app_assoc in H.
    remember (alone t) as a1 eqn:Ea1. remember (alone g) as a2 eqn:Ea2.
    injection H as Ha H. subst a1 a2.
    destruct (alone_eq t g Ha) as (Ei & Et & Ec & Ep & Eca & Es).
    destruct (subtasks t) as [subs|] eqn:Est.
    + destruct (subtasks g) as [subsg|] eqn:Esg.
      2:{ destruct Es as [_ Es]. discriminate (Es eq_refl). }
      rewrite (children_Some _ _ Est), (children_Some _ _ Esg) in H.
      destruct (IHsub subs eq_refl (S d) subsg _ _
                  (shallower_rows d ts restF HF) (shallower_rows d gs restG HG) H)
        as [-> H'].
      destruct (IHts d gs restF restG HF HG H') as [-> ->].
      split; [|reflexivity]. f_equal.
      destruct t, g; simpl in *; congruence.
    + destruct (subtasks g) as [subsg|] eqn:Esg.
      { destruct Es as [Es _]. discriminate (Es eq_refl). }
      rewrite (children_None _ Est), (children_None _ Esg) in H. simpl in H.
      destruct (IHts d gs restF restG HF HG H) as [-> ->].
      split; [|reflexivity]. f_equal.
      destruct t, g; simpl in *; congruence.
Qed.

Lemma rows_inj (F G : list Task) : rows 0 F = rows 0 G -> F = G.
Proof.
  intros H.
  apply (rows_inj_gen F 0 G [] []); simpl; trivial.
  rewrite !app_nil_r. exact H.
Qed.

(** ** Depths of rows *)

Lemma rows_depth :
  forall l d, Forall (fun r : Row => d <= fst r) (rows d l).
Proof.
  induction l as [|t ts IHsub IHts] using forest_ind; intros d.
  - constructor.
  - rewrite rows_cons. constructor; [simpl; lia|].
    apply Forall_app. split; [|apply IHts].
    unfold children. destruct (subtasks t) as [subs|]; [|constructor].
    eapply Forall_impl; [|apply (IHsub subs eq_refl (S d))].
    simpl. intros r Hr. lia.
Qed.

Lemma below_beyond (k : nat) (post : list Row) :
  below k post ++ beyond k post = post.
Proof.
  induction post as [|r post IH]; [reflexivity|].
  simpl. destruct (k <? fst r)%nat; [simpl; rewrite IH|]; reflexivity.
Qed.

Lemma below_beyond_app (k : nat) (l B : list Row) :
  shallower (S k) B ->
  below k (l ++ B) = below k l /\ beyond k (l ++ B) = beyond k l ++ B.
Proof.
  intros HB. induction l as [|x l [IH1 IH2]].
  - destruct B as [|b B]; [split; reflexivity|].
    simpl in *. replace (k <? fst b)%nat with false; [split; reflexivity|].
    symmetry. apply Nat.ltb_ge. lia.
  - simpl. destruct (k <? fst x)%nat.
    + rewrite IH1, IH2. split; reflexivity.
    + split; reflexivity.
Qed.

Lemma below_beyond_deeper (k : nat) (l : list Row) :
  Forall (fun r : Row => k < fst r) l -> below k l = l /\ beyond k l = [].
Proof.
  induction 1 as [|x l Hx Hl [IH1 IH2]]; [split; reflexivity|].
  simpl. rewrite (proj2 (Nat.ltb_lt _ _) Hx), IH1, IH2. split; reflexivity.
Qed.

Lemma shallower_siblings d ts : shallower (S d) (rows d ts).
Proof.
  rewrite <- (app_nil_r (rows d ts)). apply shallower_rows. exact I.
Qed.

(** ** Inserting a subtask *)

Section InsertSubtask.

Variable toLowerCase : string -> string.
Variable parentQuery : string.
Variable newSubtask : Task.

Local Abbreviation matches := (isMatch toLowerCase parentQuery).
Local Abbreviation go := (updateInfo toLowerCase parentQuery newSubtask).

Lemma updateInfoTask_eq t added :
  updateInfoTask toLowerCase parentQuery newSubtask t added =
  if matches t && negb added
  then (with_subtasks t (Some (children t ++ [newSubtask])), true)
  else match subtasks t with
       | Some subs =>
           let (subs', added') := go subs added in
           (with_subtasks t (Some subs'), added')
       | None => (t, added)
       end.
Proof.
  destruct t as [i ti c p ca [subs|]]; simpl; unfold St.bind, St.get; simpl;
    destruct (isMatch _ _ _ && negb added); reflexivity.
Qed.

Lemma updateInfo_cons t ts added :
  go (t :: ts) added =
  let (t', a1) := updateInfoTask toLowerCase parentQuery newSubtask t added in
  let (ts', a2) := go ts a1 in (t' :: ts', a2).
Proof. apply map_state_cons. Qed.

Lemma matches_alone t : matches (alone t) = matches t.
Proof. destruct t; reflexivity. Qed.

(** Once [added] is set, nothing changes any more. *)
Lemma updateInfo_added : forall l, go l true = (l, true).
Proof.
  induction l as [|t ts IHsub IHts] using forest_ind; [reflexivity|].
  rewrite updateInfo_cons, updateInfoTask_eq, andb_false_r.
  destruct (subtasks t) as [subs|] eqn:Es.
  - rewrite (IHsub subs eq_refl), IHts, <- Es, with_subtasks_same. reflexivity.
  - rewrite IHts. reflexivity.
Qed.

(** Without a matching node, nothing changes either. *)
Lemma updateInfo_no_match :
  forall l d added,
    Forall (fun r : Row => matches (snd r) = false) (rows d l) ->
    go l added = (l, added).
Proof.
  induction l as [|t ts IHsub IHts] using forest_ind; intros d added H;
    [reflexivity|].
  rewrite rows_cons in H. inversion H as [|r rs Hr Hrs]; subst.
  apply Forall_app in Hrs. destruct Hrs as [Hc Hts].
  simpl in Hr. rewrite matches_alone in Hr.
  rewrite updateInfo_cons, updateInfoTask_eq, Hr. simpl.
  destruct (subtasks t) as [subs|] eqn:Es.
  - rewrite (children_Some _ _ Es) in Hc.
    rewrite (IHsub subs eq_refl (S d) added Hc), (IHts d added Hts).
    rewrite <- Es, with_subtasks_same. reflexivity.
  - rewrite (IHts d added Hts). reflexivity.
Qed.

(** The first matching row, in depth-first order, gets the new subtask
    as its last child. *)
Lemma updateInfo_first_match :
  forall l d pre r post,
    rows d l = pre ++ r :: post ->
    Forall (fun r : Row => matches (snd r) = false) pre ->
    matches (snd r) = true ->
    exists l',
      go l false = (l', true)
      /\ rows d l' =
         pre ++ (fst r, with_subtasks (snd r) (Some []))
             :: below (fst r) post
             ++ rows (S (fst r)) [newSubtask]
             ++ beyond (fst r) post.
Proof.
  induction l as [|t ts IHsub IHts] using forest_ind;
    intros d pre r post Hrows Hpre Hr.
  - destruct pre; discriminate Hrows.
  - rewrite rows_cons in Hrows.
    rewrite updateInfo_cons, updateInfoTask_eq. simpl.
    destruct pre as [|p pre].
    + (* the head matches *)
      simpl in Hrows. injection Hrows as <- <-. simpl in Hr |- *.
      rewrite matches_alone in Hr. rewrite Hr. cbn [andb negb]. cbv iota beta.
      rewrite updateInfo_added.
      eexists; split; [reflexivity|].
      rewrite rows_cons.
      assert (Hc : children (with_subtasks t (Some (children t ++ [newSubtask])))
                   = children t ++ [newSubtask]) by reflexivity.
      rewrite Hc, rows_app, <- app_assoc.
      destruct (below_beyond_app d (rows (S d) (children t)) (rows d ts)
                  (shallower_siblings d ts)) as [Hb1 Hb2].
      destruct (below_beyond_deeper d (rows (S d) (children t))) as [Hd1 Hd2].
      { eapply Forall_impl; [|apply rows_depth]. simpl. intros; lia. }
      rewrite Hb1, Hb2, Hd1, Hd2. simpl. reflexivity.
    + simpl in Hrows. injection Hrows as <- Hrows.
      inversion Hpre as [|x xs Hp Hpre']; subst. simpl in Hp.
      rewrite matches_alone in Hp. rewrite Hp. simpl.
      assert (Hlater : forall l0,
                 pre = rows (S d) (children t) ++ l0 ->
                 rows d ts = l0 ++ r :: post ->
                 exists l',
                   (let (t', a1) :=
                      match subtasks t with
                      | Some subs =>
                          let (subs', added') := go subs false in
                          (with_subtasks t (Some subs'), added')
                      | None => (t, false)
                      end in
                    let (ts', a2) := go ts a1 in (t' :: ts', a2)) = (l', true)
                   /\ rows d l' =
                      ((d, alone t) :: pre)
                        ++ (fst r, with_subtasks (snd r) (Some []))
                        :: below (fst r) post
                        ++ rows (S (fst r)) [newSubtask]
                        ++ beyond (fst r) post).
      { (* the match is in a later tree *)
        intros l0 E1 E2. subst pre.
        apply Forall_app in Hpre'. destruct Hpre' as [Hc Hl0].
        destruct (IHts d l0 r post E2 Hl0 Hr) as (ts' & Hu & Hr').
        exists (t :: ts'). split.
        { destruct (subtasks t) as [subs|] eqn:Es.
          - rewrite (children_Some _ _ Es) in Hc.
            rewrite (updateInfo_no_match subs (S d) false Hc), Hu.
            rewrite <- Es, with_subtasks_same. reflexivity.
          - rewrite Hu. reflexivity. }
        rewrite rows_cons, Hr'. simpl. rewrite <- app_assoc. reflexivity. }
      symmetry in Hrows.
      apply app_eq_app in Hrows. destruct Hrows as (l0 & [[E1 E2]|[E1 E2]]).
      { exact (Hlater l0 E1 E2). }
      destruct l0 as [|r0 l0].
      { rewrite app_nil_r in E1. simpl in E2.
        apply (Hlater []); [rewrite app_nil_r|simpl]; symmetry; assumption. }
      clear Hlater.
      * (* the match is among the children *)
        simpl in E2. injection E2 as <- ->.
        destruct (subtasks t) as [subs|] eqn:Es.
        2:{ rewrite (children_None _ Es) in E1. destruct pre; discriminate E1. }
        rewrite (children_Some _ _ Es) in E1.
        destruct (IHsub subs eq_refl (S d) pre r l0 E1 Hpre' Hr) as (subs' & Hu & Hr').
        rewrite Hu, updateInfo_added.
        eexists; split; [reflexivity|].
        rewrite rows_cons, (alone_with_subtasks _ _ subs' Es).
        assert (Hc : children (with_subtasks t (Some subs')) = subs') by reflexivity.
        rewrite Hc, Hr'.
        assert (Hk : S d <= fst r).
        { pose proof (rows_depth subs (S d)) as Hd. rewrite E1 in Hd.
          apply Forall_app in Hd. destruct Hd as [_ Hd].
          inversion Hd; assumption. }
        destruct (below_beyond_app (fst r) l0 (rows d ts)) as [Hb1 Hb2].
        { pose proof (shallower_siblings d ts) as Hs.
          destruct (rows d ts); simpl in *; [trivial|lia]. }
        rewrite Hb1, Hb2. simpl. rewrite <- !app_assoc. simpl.
        rewrite <- !app_assoc. reflexivity.
Qed.

End InsertSubtask.

Lemma rows_length d l : List.length (rows d l) = List.length (ids l).
Proof. rewrite <- (ids_rows d l). symmetry. apply length_map. Qed.

Lemma includes_empty s : JS.includes s "" = true.
Proof. destruct s; reflexivity. Qed.

(** C1. [addSubtaskRecursive] leaves the forest alone and reports
    [false] when no node matches the query.  Otherwise the first matching
    node in depth-first order (parents before children, siblings in
    order) gets the new task as its last child, its [subtasks] array being
    created when absent; every other row stays as it was, the forest grows
    by the nodes of the new task only (one node for a new task without
    children), and the result is [true], however many later nodes
    match. *)
Theorem addSubtaskRecursive_first_match
        (toLowerCase : string -> string)
        (F : list Task) (parentQuery : string) (newSubtask : Task) :
  (Forall (fun r : Row => isMatch toLowerCase parentQuery (snd r) = false) (rows 0 F) ->
   addSubtaskRecursive toLowerCase F parentQuery newSubtask = (F, false))
  /\
  (forall pre r post,
      rows 0 F = pre ++ r :: post ->
      Forall (fun r : Row => isMatch toLowerCase parentQuery (snd r) = false) pre ->
      isMatch toLowerCase parentQuery (snd r) = true ->
      exists F',
        addSubtaskRecursive toLowerCase F parentQuery newSubtask = (F', true)
        /\ rows 0 F' =
           pre ++ (fst r, with_subtasks (snd r) (Some []))
               :: below (fst r) post
               ++ rows (S (fst r)) [newSubtask]
               ++ beyond (fst r) post
        /\ List.length (rows 0 F') = List.length (rows 0 F) + List.length (rows 0 [newSubtask])
        /\ (children newSubtask = [] ->
            List.length (rows 0 F') = S (List.length (rows 0 F)))).
Proof.
  split.
  - intros H. exact (updateInfo_no_match toLowerCase parentQuery newSubtask F 0 false H).
  - intros pre r post Hrows Hpre Hr.
    destruct (updateInfo_first_match toLowerCase parentQuery newSubtask
                F 0 pre r post Hrows Hpre Hr) as (F' & Hu & Hr').
    exists F'. split; [exact Hu|]. split; [exact Hr'|].
    assert (Hlen : List.length (rows 0 F') = List.length (rows 0 F) + List.length (rows 0 [newSubtask])).
    { rewrite Hr', Hrows.
      rewrite <- (below_beyond (fst r) post) at 3.
      rewrite !length_app. simpl. rewrite !length_app.
      rewrite (rows_length (S (fst r))), (rows_length 0). lia. }
    split; [exact Hlen|].
    intros Hleaf. rewrite Hlen, rows_cons, Hleaf. simpl. lia.
Qed.

(** C10. With the empty string as query, and a [toLowerCase] that maps
    the empty string to itself, the first top-level task of a non-empty
    forest matches: it gets the new task as its last subtask, nothing
    else changes, and the result is [true]. *)
Theorem addSubtaskRecursive_empty_query
        (toLowerCase : string -> string)
        (t : Task) (ts : list Task) (newSubtask : Task) :
  toLowerCase "" = "" ->
  addSubtaskRecursive toLowerCase (t :: ts) "" newSubtask
  = (with_subtasks t (Some (children t ++ [newSubtask])) :: ts, true).
Proof.
  intros Hlow. unfold addSubtaskRecursive.
  rewrite updateInfo_cons, updateInfoTask_eq.
  unfold isMatch. rewrite Hlow, includes_empty, orb_true_r.
  cbn [andb negb]. cbv iota beta.
  rewrite updateInfo_added. reflexivity.
Qed.

(** ** Removing by id or title *)

Lemma marks_cons p anc d t ts :
  marks p anc d (t :: ts) =
  ((d, alone t), anc) :: marks p (anc || p t) (S d) (children t) ++ marks p anc d ts.
Proof. destruct t as [i ti c pr ca [subs|]]; reflexivity. Qed.

(** The marks enumerate the rows of the forest. *)
Lemma marks_rows p :
  forall l anc d, List.map fst (marks p anc d l) = rows d l.
Proof.
  induction l as [|t ts IHsub IHts] using forest_ind; intros anc d.
  - reflexivity.
  - rewrite marks_cons, rows_cons. simpl. rewrite map_app, IHts. do 2 f_equal.
    unfold children. destruct (subtasks t) as [subs|]; [|reflexivity].
    apply (IHsub subs eq_refl).
Qed.

(** Below a matching ancestor nothing is a top-level match and nothing is
    kept. *)
Lemma marks_under_match p :
  forall l d,
    List.filter (top_match p) (marks p true d l) = []
    /\ List.filter (kept p) (marks p true d l) = [].
Proof.
  induction l as [|t ts IHsub IHts] using forest_ind; intros d.
  - split; reflexivity.
  - rewrite marks_cons. simpl. rewrite !filter_app.
    destruct (IHts d) as [-> ->].
    unfold children. destruct (subtasks t) as [subs|].
    + destruct (IHsub subs eq_refl (S d)) as [-> ->]. split; reflexivity.
    + split; reflexivity.
Qed.

Lemma reduce_state_cons {S A B} (f : B -> A -> St.M S B) x r acc s :
  St.reduce f (x :: r) acc s =
  let (acc', s') := f acc x s in St.reduce f r acc' s'.
Proof. reflexivity. Qed.

Section RemoveTask.

Variable toLowerCase : string -> string.
Variables taskId searchTitle : option string.

Local Abbreviation matched :=
  (fun task => matchId taskId task || matchTitle toLowerCase searchTitle task).
Local Abbreviation step := (filterTask toLowerCase taskId searchTitle).

Lemma filterTask_eq acc t count :
  step acc t count =
  if matched t then (acc, S count)
  else match subtasks t with
       | Some subs =>
           let (subs', count') := St.reduce step subs [] count in
           (acc ++ [with_subtasks t (Some subs')], count')
       | None => (acc ++ [t], count)
       end.
Proof.
  destruct t as [i ti c p ca [subs|]]; simpl;
    destruct (matchId _ _ || matchTitle _ _ _); reflexivity.
Qed.

Lemma matched_alone t : matched (alone t) = matched t.
Proof. destruct t; reflexivity. Qed.

(** What the loop of [filterList] pushes and counts. *)
Lemma reduce_filterTask :
  forall l d acc count,
    exists l',
      St.reduce step l acc count =
      (acc ++ l',
       count + List.length (List.filter (top_match matched) (marks matched false d l)))
      /\ rows d l' =
         List.map fst (List.filter (kept matched) (marks matched false d l)).
Proof.
  induction l as [|t ts IHsub IHts] using forest_ind; intros d acc count.
  - exists []. simpl. rewrite app_nil_r, Nat.add_0_r. split; reflexivity.
  - rewrite reduce_state_cons, filterTask_eq, marks_cons. simpl.
    unfold top_match at 1, kept at 1. simpl. rewrite matched_alone.
    rewrite !filter_app.
    destruct (matchId taskId t || matchTitle toLowerCase searchTitle t) eqn:Em.
    + (* a top-level match: dropped with everything below it *)
      destruct (marks_under_match matched (children t) (S d)) as [-> ->].
      destruct (IHts d acc (S count)) as (ts' & Hts & Hr).
      exists ts'. simpl. rewrite Hts, Hr. split; [f_equal; lia|reflexivity].
    + simpl. destruct (subtasks t) as [subs|] eqn:Es.
      * rewrite (children_Some _ _ Es).
        destruct (IHsub subs eq_refl (S d) [] count) as (subs' & Hsub & Hrs).
        rewrite Hsub. simpl.
        destruct (IHts d (acc ++ [with_subtasks t (Some subs')])
                    (count + List.length
                               (List.filter (top_match matched)
                                            (marks matched false (S d) subs))))
          as (ts' & Hts & Hr).
        exists (with_subtasks t (Some subs') :: ts').
        rewrite Hts, <- app_assoc. simpl. rewrite length_app.
        split; [f_equal; lia|].
        rewrite rows_cons, (alone_with_subtasks _ _ subs' Es), map_app.
        assert (Hc : children (with_subtasks t (Some subs')) = subs') by reflexivity.
        rewrite Hc, Hrs, Hr. reflexivity.
      * rewrite (children_None _ Es).
        destruct (IHts d (acc ++ [t]) count) as (ts' & Hts & Hr).
        exists (t :: ts'). rewrite Hts, <- app_assoc. simpl.
        split; [reflexivity|].
        rewrite rows_cons, (children_None _ Es), Hr. reflexivity.
Qed.

(** When nothing matches, the loop pushes every task as it is. *)
Lemma reduce_no_match :
  (forall t, matched t = false) ->
  forall l acc count, St.reduce step l acc count = (acc ++ l, count).
Proof.
  intros Hno.
  induction l as [|t ts IHsub IHts] using forest_ind; intros acc count.
  - simpl. rewrite app_nil_r. reflexivity.
  - rewrite reduce_state_cons, filterTask_eq, Hno.
    destruct (subtasks t) as [subs|] eqn:Es.
    + rewrite (IHsub subs eq_refl). simpl.
      rewrite IHts, <- app_assoc, <- Es, with_subtasks_same. reflexivity.
    + rewrite IHts, <- app_assoc. reflexivity.
Qed.

Lemma matched_spec t :
  matched t = true <->
  (exists s, taskId = Some s /\ s <> "" /\ id t = s)
  \/ (exists q, searchTitle = Some q /\ q <> ""
                /\ JS.includes (toLowerCase (title t)) (toLowerCase q) = true).
Proof.
  rewrite orb_true_iff. unfold matchId, matchTitle, JS.truthy, JS.strict_eq.
  split.
  - intros [H|H].
    + left. destruct taskId as [s|]; [|discriminate H].
      apply andb_true_iff in H. destruct H as [H1 H2].
      exists s. split; [reflexivity|]. split.
      * apply negb_true_iff, String.eqb_neq in H1. exact H1.
      * apply String.eqb_eq. exact H2.
    + right. destruct searchTitle as [q|]; [|discriminate H].
      apply andb_true_iff in H. destruct H as [H1 H2].
      exists q. split; [reflexivity|]. split; [|exact H2].
      apply negb_true_iff, String.eqb_neq in H1. exact H1.
  - intros [(s & -> & Hs & <-)|(q & -> & Hq & Hinc)].
    + left. apply andb_true_iff. split.
      * apply negb_true_iff, String.eqb_neq. exact Hs.
      * apply String.eqb_refl.
    + right. apply andb_true_iff. split; [|exact Hinc].
      apply negb_true_iff, String.eqb_neq. exact Hq.
Qed.

End RemoveTask.

Lemma reduce_filterTask_ext toLowerCase taskId s1 s2 :
  (forall t, matchTitle toLowerCase s1 t = matchTitle toLowerCase s2 t) ->
  forall l acc count,
    St.reduce (filterTask toLowerCase taskId s1) l acc count
    = St.reduce (filterTask toLowerCase taskId s2) l acc count.
Proof.
  intros Hext.
  induction l as [|t ts IHsub IHts] using forest_ind; intros acc count.
  - reflexivity.
  - rewrite !reduce_state_cons, !filterTask_eq, Hext.
    destruct (matchId taskId t || matchTitle toLowerCase s2 t); [apply IHts|].
    destruct (subtasks t) as [subs|]; [|apply IHts].
    rewrite (IHsub subs eq_refl).
    destruct (St.reduce (filterTask toLowerCase taskId s2) subs [] count).
    apply IHts.
Qed.

Lemma matchTitle_falsy toLowerCase searchTitle t :
  searchTitle = None \/ searchTitle = Some "" ->
  matchTitle toLowerCase searchTitle t = false.
Proof. intros [->| ->]; reflexivity. Qed.

Lemma matchId_falsy taskId t :
  taskId = None \/ taskId = Some "" -> matchId taskId t = false.
Proof. intros [->| ->]; reflexivity. Qed.

(** C2. [findAndRemoveRecursive] tests a node by its id
    (against a non-empty [taskId]) or its title (containing a non-empty
    [searchTitle], case folded), and keeps exactly the nodes for which
    neither the node nor any of its ancestors passes the test.  So no node
    that passes remains at any depth, the subtree of a removed node goes
    with it untested, and [removedCount] is the number of nodes that pass
    the test and have no ancestor that does. *)
Theorem findAndRemoveRecursive_removes_all
        (toLowerCase : string -> string)
        (F : list Task) (taskId searchTitle : option string) :
  let matched :=
    fun task => matchId taskId task || matchTitle toLowerCase searchTitle task in
  let result := findAndRemoveRecursive toLowerCase F taskId searchTitle in
  (forall t,
      matched t = true <->
      (exists s, taskId = Some s /\ s <> "" /\ id t = s)
      \/ (exists q, searchTitle = Some q /\ q <> ""
                    /\ JS.includes (toLowerCase (title t)) (toLowerCase q) = true))
  /\ List.map fst (marks matched false 0 F) = rows 0 F
  /\ rows 0 (fst result)
     = List.map fst (List.filter (kept matched) (marks matched false 0 F))
  /\ snd result
     = List.length (List.filter (top_match matched) (marks matched false 0 F))
  /\ Forall (fun r : Row => matched (snd r) = false) (rows 0 (fst result)).
Proof.
  intros matched result.
  destruct (reduce_filterTask toLowerCase taskId searchTitle F 0 [] 0)
    as (F' & Hred & Hrows).
  assert (Hres : result
                 = (F', List.length (List.filter (top_match matched)
                                                 (marks matched false 0 F))))
    by exact Hred.
  split; [apply matched_spec|].
  split; [apply marks_rows|].
  rewrite Hres. simpl.
  split; [exact Hrows|]. split; [reflexivity|].
  rewrite Hrows. apply Forall_forall. intros r Hin.
  apply in_map_iff in Hin. destruct Hin as (x & <- & Hx).
  apply filter_In in Hx. destruct Hx as [_ Hk].
  unfold kept in Hk. apply andb_true_iff in Hk. destruct Hk as [_ Hk].
  apply negb_true_iff in Hk. exact Hk.
Qed.

(** C5. An absent or empty [searchTitle] matches no task by its title:
    the removal is the one by [taskId] alone.  When [taskId] is absent
    (or empty) as well, no node matches, the forest comes back as it was
    and the count is 0. *)
Theorem findAndRemoveRecursive_empty_title
        (toLowerCase : string -> string)
        (F : list Task) (taskId searchTitle : option string) :
  searchTitle = None \/ searchTitle = Some "" ->
  (forall t, matchTitle toLowerCase searchTitle t = false)
  /\ findAndRemoveRecursive toLowerCase F taskId searchTitle
     = findAndRemoveRecursive toLowerCase F taskId None
  /\ (taskId = None \/ taskId = Some "" ->
      (forall t, matchId taskId t || matchTitle toLowerCase searchTitle t = false)
      /\ findAndRemoveRecursive toLowerCase F taskId searchTitle = (F, 0)).
Proof.
  intros Hs. split; [|split].
  - intros t. apply matchTitle_falsy, Hs.
  - apply reduce_filterTask_ext. intros t.
    rewrite (matchTitle_falsy toLowerCase searchTitle t Hs). reflexivity.
  - intros Hi.
    assert (Hno : forall t,
               matchId taskId t || matchTitle toLowerCase searchTitle t = false).
    { intros t. rewrite (matchId_falsy taskId t Hi).
      apply matchTitle_falsy, Hs. }
    split; [exact Hno|].
    exact (reduce_no_match toLowerCase taskId searchTitle Hno F [] 0).
Qed.

(** ** The tool loop *)

Lemma ids_app l1 l2 : ids (l1 ++ l2) = ids l1 ++ ids l2.
Proof. unfold ids. rewrite rows_app. apply map_app. Qed.

Lemma updateList_ids taskId b :
  forall l found, ids (fst (updateList taskId b l found)) = ids l.
Proof.
  induction l as [|t ts IHsub IHts] using forest_ind; intros found.
  - reflexivity.
  - rewrite updateList_cons, updateTask_eq.
    destruct (JS.strict_eq (id t) taskId).
    + specialize (IHts true).
      destruct (updateList taskId b ts true) as [ts' f2]. simpl in *.
      rewrite !ids_cons, IHts. destruct t; reflexivity.
    + destruct (subtasks t) as [subs|] eqn:Es.
      * specialize (IHsub subs eq_refl found).
        destruct (updateList taskId b subs found) as [subs' f1]. simpl in IHsub.
        specialize (IHts f1).
        destruct (updateList taskId b ts f1) as [ts' f2]. simpl in *.
        rewrite !ids_cons, IHts, (children_Some _ _ Es).
        assert (Hc : children (with_subtasks t (Some subs')) = subs') by reflexivity.
        rewrite Hc, IHsub. destruct t; reflexivity.
      * specialize (IHts found).
        destruct (updateList taskId b ts found) as [ts' f2]. simpl in *.
        rewrite !ids_cons, IHts. reflexivity.
Qed.

Lemma updateList_found_mono taskId b :
  forall l, snd (updateList taskId b l true) = true.
Proof.
  induction l as [|t ts IHsub IHts] using forest_ind.
  - reflexivity.
  - rewrite updateList_cons, updateTask_eq.
    destruct (JS.strict_eq (id t) taskId).
    + destruct (updateList taskId b ts true) as [ts' f2]. exact IHts.
    + destruct (subtasks t) as [subs|] eqn:Es.
      * specialize (IHsub subs eq_refl).
        destruct (updateList taskId b subs true) as [subs' f1]. simpl in IHsub.
        subst f1. destruct (updateList taskId b ts true) as [ts' f2]. exact IHts.
      * destruct (updateList taskId b ts true) as [ts' f2]. exact IHts.
Qed.

(** An id that occurs in the forest is found. *)
Lemma updateList_finds id0 b :
  forall l found,
    In id0 (ids l) -> snd (updateList (Some id0) b l found) = true.
Proof.
  induction l as [|t ts IHsub IHts] using forest_ind; intros found H.
  - destruct H.
  - rewrite ids_cons in H. simpl in H. rewrite in_app_iff in H.
    rewrite updateList_cons, updateTask_eq. simpl.
    destruct (id t =? id0) eqn:E.
    + pose proof (updateList_found_mono (Some id0) b ts) as Hm.
      destruct (updateList (Some id0) b ts true) as [ts' f2]. exact Hm.
    + apply String.eqb_neq in E.
      destruct (subtasks t) as [subs|] eqn:Es.
      * rewrite (children_Some _ _ Es) in H.
        destruct (In_dec string_dec id0 (ids subs)) as [Hin|Hout].
        -- pose proof (IHsub subs eq_refl found Hin) as Hf.
           destruct (updateList (Some id0) b subs found) as [subs' f1].
           simpl in Hf. subst f1.
           pose proof (updateList_found_mono (Some id0) b ts) as Hm.
           destruct (updateList (Some id0) b ts true) as [ts' f2]. exact Hm.
        -- destruct (updateList (Some id0) b subs found) as [subs' f1].
           assert (Hts : In id0 (ids ts)) by tauto.
           specialize (IHts f1 Hts).
           destruct (updateList (Some id0) b ts f1) as [ts' f2]. exact IHts.
      * rewrite (children_None _ Es) in H. simpl in H.
        assert (Hts : In id0 (ids ts)) by tauto.
        specialize (IHts found Hts).
        destruct (updateList (Some id0) b ts found) as [ts' f2]. exact IHts.
Qed.

(** Inserting a subtask removes no id. *)
Lemma updateInfo_ids toLowerCase parentQuery newSubtask x :
  forall l added,
    In x (ids l) ->
    In x (ids (fst (updateInfo toLowerCase parentQuery newSubtask l added))).
Proof.
  induction l as [|t ts IHsub IHts] using forest_ind; intros added H.
  - destruct H.
  - rewrite ids_cons in H. simpl in H. rewrite in_app_iff in H.
    rewrite updateInfo_cons, updateInfoTask_eq.
    destruct (isMatch toLowerCase parentQuery t && negb added); cbv iota beta.
    + specialize (IHts true).
      destruct (updateInfo toLowerCase parentQuery newSubtask ts true) as [ts' a2].
      cbn [fst] in *. rewrite ids_cons. simpl. rewrite in_app_iff.
      assert (Hc : children (with_subtasks t (Some (children t ++ [newSubtask])))
                   = children t ++ [newSubtask]) by reflexivity.
      rewrite Hc, ids_app, in_app_iff.
      destruct H as [H|[H|H]]; [left; destruct t; exact H|tauto|tauto].
    + destruct (subtasks t) as [subs|] eqn:Es.
      * rewrite (children_Some _ _ Es) in H.
        specialize (IHsub subs eq_refl added).
        destruct (updateInfo toLowerCase parentQuery newSubtask subs added)
          as [subs' a1]. cbn [fst] in IHsub.
        specialize (IHts a1).
        destruct (updateInfo toLowerCase parentQuery newSubtask ts a1) as [ts' a2].
        cbn [fst] in *. rewrite ids_cons. simpl. rewrite in_app_iff.
        assert (Hc : children (with_subtasks t (Some subs')) = subs') by reflexivity.
        rewrite Hc.
        destruct H as [H|[H|H]]; [left; destruct t; exact H|tauto|tauto].
      * rewrite (children_None _ Es) in H. simpl in H.
        specialize (IHts added).
        destruct (updateInfo toLowerCase parentQuery newSubtask ts added) as [ts' a2].
        cbn [fst] in *. rewrite ids_cons. simpl. rewrite in_app_iff.
        rewrite (children_None _ Es). simpl. tauto.
Qed.

Ltac run_monad :=
  unfold St.bind, St.get, St.put, St.ret, setTasks;
  cbn [fst snd tasks tasksState].

Section ToolLoop.

Variable toLowerCase : string -> string.
Variable generateId : nat -> string.
Variable now : nat -> Z.
Variable eager : nat -> bool.

Local Abbreviation dispatch' := (dispatch toLowerCase generateId now eager).
Local Abbreviation toolLoop' := (toolLoop toLowerCase generateId now eager).

Lemma executeAddTask_eq n args c :
  executeAddTask generateId now n args c =
  (Result ("Task added successfully with ID: " ++ generateId n),
   mkComponent (tasks c)
     (mkTask (generateId n) (Args.title args) false
             (priority_or_medium (Args.priority args)) (now n) (Some [])
        :: tasksState c)).
Proof. reflexivity. Qed.

Lemma executeAddSubtask_state n args c :
  snd (executeAddSubtask toLowerCase generateId now eager n args c) =
  mkComponent (tasks c)
    (fst (addSubtaskRecursive toLowerCase (tasksState c) (Args.parentQuery args)
            (mkTask (generateId n) (Args.title args) false
                    (priority_or_medium (Args.priority args)) (now n) (Some [])))).
Proof.
  unfold executeAddSubtask. run_monad.
  destruct (eager n && _); reflexivity.
Qed.

Lemma executeRemoveTask_state n args c :
  snd (executeRemoveTask toLowerCase eager n args c) =
  mkComponent (tasks c)
    (fst (findAndRemoveRecursive toLowerCase (tasksState c)
            (Args.taskId args) (Args.searchTitle args))).
Proof.
  unfold executeRemoveTask. run_monad.
  destruct (0 <? _)%nat; reflexivity.
Qed.

Lemma executeUpdateTaskStatus_state n args c :
  snd (executeUpdateTaskStatus eager n args c) =
  mkComponent (tasks c)
    (fst (updateStatusRecursive (tasksState c) (Args.taskId args)
            (Args.completed args))).
Proof.
  unfold executeUpdateTaskStatus. run_monad.
  destruct (eager n && _); reflexivity.
Qed.

Lemma dispatch_getTasks n call c :
  FunctionCall.name call = "getTasks" ->
  dispatch' n call c = (executeGetTasks (tasks c), c).
Proof. intros E. unfold dispatch. rewrite E. reflexivity. Qed.

Lemma dispatch_unknown n call c :
  ~ In (FunctionCall.name call) catalogue ->
  dispatch' n call c = (Error "Unknown tool", c).
Proof.
  intros H. unfold dispatch. cbv zeta.
  repeat match goal with
         | |- context [FunctionCall.name call =? ?s] =>
             destruct (String.eqb_spec (FunctionCall.name call) s) as [E|_];
             [exfalso; apply H; rewrite E; simpl; tauto|]
         end.
  reflexivity.
Qed.

(** A running handler never sees [tasks] re-bound. *)
Lemma dispatch_tasks n call c : tasks (snd (dispatch' n call c)) = tasks c.
Proof.
  unfold dispatch. cbv zeta.
  repeat match goal with
         | |- context [FunctionCall.name call =? ?s] =>
             destruct (FunctionCall.name call =? s)
         end.
  - reflexivity.
  - rewrite executeAddSubtask_state. reflexivity.
  - rewrite executeRemoveTask_state. reflexivity.
  - rewrite executeUpdateTaskStatus_state. reflexivity.
  - reflexivity.
  - reflexivity.
Qed.

Lemma toolLoop_cons n call rest c :
  toolLoop' n (call :: rest) c =
  let (toolResult, c1) := dispatch' n call c in
  let (responseParts, c2) := toolLoop' (S n) rest c1 in
  (FunctionResponse.mk (FunctionCall.name call) toolResult (FunctionCall.id call)
     :: responseParts, c2).
Proof.
  simpl. unfold St.bind. destruct (dispatch' n call c) as [r c1].
  destruct (toolLoop' (S n) rest c1); reflexivity.
Qed.

Lemma toolLoop_tasks calls : forall n c, tasks (snd (toolLoop' n calls c)) = tasks c.
Proof.
  induction calls as [|call rest IH]; intros n c; [reflexivity|].
  rewrite toolLoop_cons.
  pose proof (dispatch_tasks n call c) as Hd.
  destruct (dispatch' n call c) as [r c1]. simpl in Hd.
  specialize (IH (S n) c1).
  destruct (toolLoop' (S n) rest c1) as [rs c2]. simpl in *. congruence.
Qed.

(** The loop over [l1 ++ l2] runs [l2] on what [l1] has left. *)
Lemma toolLoop_app l1 l2 :
  forall n c,
    toolLoop' n (l1 ++ l2) c =
    let (r1, c1) := toolLoop' n l1 c in
    let (r2, c2) := toolLoop' (n + List.length l1) l2 c1 in
    (r1 ++ r2, c2).
Proof.
  induction l1 as [|call rest IH]; intros n c.
  - simpl. unfold St.ret. rewrite Nat.add_0_r.
    destruct (toolLoop' n l2 c); reflexivity.
  - rewrite <- app_comm_cons, !toolLoop_cons.
    destruct (dispatch' n call c) as [r c1].
    rewrite IH. destruct (toolLoop' (S n) rest c1) as [r1 c2].
    cbn [List.length]. rewrite Nat.add_succ_r, <- Nat.add_succ_l.
    destruct (toolLoop' (S n + List.length rest) l2 c2); reflexivity.
Qed.

Lemma toolLoop_snoc pre call n c :
  snd (toolLoop' n (pre ++ [call]) c) =
  snd (dispatch' (n + List.length pre) call (snd (toolLoop' n pre c))).
Proof.
  rewrite toolLoop_app. destruct (toolLoop' n pre c) as [r1 c1].
  rewrite toolLoop_cons. cbn [snd].
  destruct (dispatch' (n + List.length pre) call c1) as [r c2]. reflexivity.
Qed.

(** Only [removeTask] takes ids out of the forest. *)
Lemma dispatch_keeps_ids n call c x :
  FunctionCall.name call <> "removeTask" ->
  In x (ids (tasksState c)) ->
  In x (ids (tasksState (snd (dispatch' n call c)))).
Proof.
  intros Hname Hin. unfold dispatch. cbv zeta.
  destruct (FunctionCall.name call =? "addTask").
  { rewrite executeAddTask_eq. cbn [snd tasksState].
    rewrite ids_cons. right. apply in_or_app. right. exact Hin. }
  destruct (FunctionCall.name call =? "addSubtask").
  { rewrite executeAddSubtask_state. cbn [tasksState].
    apply updateInfo_ids. exact Hin. }
  destruct (String.eqb_spec (FunctionCall.name call) "removeTask") as [E|_];
    [contradiction|].
  destruct (FunctionCall.name call =? "updateTaskStatus").
  { rewrite executeUpdateTaskStatus_state. cbn [tasksState].
    unfold updateStatusRecursive. rewrite updateList_ids. exact Hin. }
  destruct (FunctionCall.name call =? "getTasks"); exact Hin.
Qed.

Lemma toolLoop_keeps_ids calls x :
  Forall (fun call => FunctionCall.name call <> "removeTask") calls ->
  forall n c,
    In x (ids (tasksState c)) ->
    In x (ids (tasksState (snd (toolLoop' n calls c)))).
Proof.
  induction 1 as [|call rest Hcall Hrest IH]; intros n c Hin; [exact Hin|].
  rewrite toolLoop_cons.
  pose proof (dispatch_keeps_ids n call c x Hcall Hin) as Hd.
  destruct (dispatch' n call c) as [r c1]. cbn [snd] in Hd.
  specialize (IH (S n) c1 Hd).
  destruct (toolLoop' (S n) rest c1) as [rs c2]. exact IH.
Qed.

End ToolLoop.

(** ** The projection for the model *)

Lemma simplify_length l : List.length (simplify l) = List.length l.
Proof. apply length_map. Qed.

Lemma toolLoop_getTasks toLowerCase generateId now eager calls :
  forall n c,
    Forall (fun resp =>
              FunctionResponse.name resp = "getTasks" ->
              FunctionResponse.response resp = Tasks (simplify (tasks c)))
           (fst (toolLoop toLowerCase generateId now eager n calls c)).
Proof.
  induction calls as [|call rest IH]; intros n c; [constructor|].
  rewrite toolLoop_cons.
  pose proof (dispatch_getTasks toLowerCase generateId now eager n call c) as Hg.
  pose proof (dispatch_tasks toLowerCase generateId now eager n call c) as Ht.
  destruct (dispatch toLowerCase generateId now eager n call c) as [r c1].
  cbn [snd] in Ht. specialize (IH (S n) c1). rewrite Ht in IH.
  destruct (toolLoop toLowerCase generateId now eager (S n) rest c1) as [rs c2].
  cbn [fst] in *. constructor; [|exact IH].
  cbn [FunctionResponse.name FunctionResponse.response]. intros E.
  specialize (Hg E). injection Hg as -> _. reflexivity.
Qed.

(** C3. Every [getTasks] response of a batch is the projection of
    [tasks], the binding of the render that created the handler, whatever
    the earlier invocations of the batch did to the state.  After an
    [addTask] in the same batch the response is therefore the projection
    of the forest without the new task, which is not the projection of
    the forest at the moment of the call. *)
Theorem getTasks_reports_render_binding
        (toLowerCase : string -> string) (generateId : nat -> string)
        (now : nat -> Z) (eager : nat -> bool) :
  (forall calls n c,
      Forall (fun resp =>
                FunctionResponse.name resp = "getTasks" ->
                FunctionResponse.response resp = Tasks (simplify (tasks c)))
             (fst (toolLoop toLowerCase generateId now eager n calls c)))
  /\
  (forall F add get,
      FunctionCall.name add = "addTask" ->
      FunctionCall.name get = "getTasks" ->
      let c0 := mkComponent F F in
      let at_call :=
        tasksState (snd (toolLoop toLowerCase generateId now eager 0 [add] c0)) in
      List.map FunctionResponse.response
               (fst (toolLoop toLowerCase generateId now eager 0 [add; get] c0))
      = [ Result ("Task added successfully with ID: " ++ generateId 0);
          Tasks (simplify F) ]
      /\ at_call
         = mkTask (generateId 0) (Args.title (FunctionCall.args add)) false
                  (priority_or_medium (Args.priority (FunctionCall.args add)))
                  (now 0) (Some [])
             :: F
      /\ simplify at_call <> simplify F).
Proof.
  split; [intros calls n c; apply toolLoop_getTasks|].
  intros F add get Hadd Hget c0 at_call.
  assert (Hat : at_call
                = mkTask (generateId 0) (Args.title (FunctionCall.args add)) false
                         (priority_or_medium (Args.priority (FunctionCall.args add)))
                         (now 0) (Some [])
                    :: F).
  { subst at_call. rewrite toolLoop_cons. unfold dispatch. cbv zeta.
    rewrite Hadd. reflexivity. }
  split; [|split; [exact Hat|]].
  - rewrite toolLoop_cons. unfold dispatch at 1. cbv zeta. rewrite Hadd.
    cbn [String.eqb Ascii.eqb Bool.eqb andb]. rewrite executeAddTask_eq.
    cbv iota beta. rewrite toolLoop_cons. unfold dispatch. cbv zeta. rewrite Hget.
    reflexivity.
  - rewrite Hat. intros E. apply (f_equal (@List.length SimpleTask)) in E.
    rewrite !simplify_length in E. simpl in E. lia.
Qed.

(** ** Arguments are not validated *)

Lemma updateList_undefined b :
  forall l found, updateList None b l found = (l, found).
Proof.
  induction l as [|t ts IHsub IHts] using forest_ind; intros found; [reflexivity|].
  rewrite updateList_cons, updateTask_eq. cbn [JS.strict_eq].
  destruct (subtasks t) as [subs|] eqn:Es.
  - rewrite (IHsub subs eq_refl), IHts, <- Es, with_subtasks_same. reflexivity.
  - rewrite IHts. reflexivity.
Qed.

Lemma priority_or_medium_given p :
  p <> "" -> priority_or_medium (Some p) = p.
Proof.
  intros H. unfold priority_or_medium, JS.truthy.
  rewrite (proj2 (String.eqb_neq p "") H). reflexivity.
Qed.

(** C9, as amended. The dispatcher checks the name only: the one
    structured error is [{ error: "Unknown tool" }], returned exactly for
    a name outside the catalogue, and then the state is untouched.
    Arguments are not checked against the schema.  An [addTask] with a
    title always succeeds and stores the priority it is given, any
    non-empty string as it is and an absent or empty one as medium.  An
    [updateTaskStatus] without its [taskId] goes to the engine, which
    finds nothing, and is answered with the text for a missing task, not
    with an error. *)
Theorem dispatch_checks_name_only
        (toLowerCase : string -> string) (generateId : nat -> string)
        (now : nat -> Z) (eager : nat -> bool)
        (n : nat) (call : FunctionCall.t) (c : Component) :
  let name := FunctionCall.name call in
  let args := FunctionCall.args call in
  let out := dispatch toLowerCase generateId now eager n call c in
  (is_error (fst out) = true <-> ~ In name catalogue)
  /\ (~ In name catalogue -> out = (Error "Unknown tool", c))
  /\ (name = "addTask" ->
      out = (Result ("Task added successfully with ID: " ++ generateId n),
             mkComponent (tasks c)
               (mkTask (generateId n) (Args.title args) false
                       (priority_or_medium (Args.priority args)) (now n) (Some [])
                  :: tasksState c)))
  /\ (forall p, Args.priority args = Some p -> p <> "" ->
                priority_or_medium (Args.priority args) = p)
  /\ (Args.priority args = None \/ Args.priority args = Some "" ->
      priority_or_medium (Args.priority args) = PriorityEnum.MEDIUM)
  /\ (name = "addTask" ->
      forall p, Args.priority args = Some p -> p <> "" ->
        out = (Result ("Task added successfully with ID: " ++ generateId n),
               mkComponent (tasks c)
                 (mkTask (generateId n) (Args.title args) false p (now n) (Some [])
                    :: tasksState c)))
  /\ (name = "addTask" ->
      Args.priority args = None \/ Args.priority args = Some "" ->
        out = (Result ("Task added successfully with ID: " ++ generateId n),
               mkComponent (tasks c)
                 (mkTask (generateId n) (Args.title args) false "medium" (now n)
                         (Some [])
                    :: tasksState c)))
  /\ (name = "updateTaskStatus" -> Args.taskId args = None ->
      out = (Result "Task with ID undefined not found.", c)
      /\ tasksState (snd out)
         = fst (updateStatusRecursive (tasksState c) None (Args.completed args))
      /\ updateStatusRecursive (tasksState c) None (Args.completed args)
         = (tasksState c, false)).
Proof.
  intros name args out.
  assert (Hknown : In name catalogue -> is_error (fst out) = false).
  { subst out name. unfold dispatch. cbv zeta. simpl.
    intros [E|[E|[E|[E|[E|[]]]]]]; rewrite <- E;
      cbn [String.eqb Ascii.eqb Bool.eqb andb].
    - reflexivity.
    - unfold executeAddSubtask. run_monad. destruct (eager n && _); reflexivity.
    - unfold executeRemoveTask. run_monad. destruct (0 <? _)%nat; reflexivity.
    - unfold executeUpdateTaskStatus. run_monad. destruct (eager n && _); reflexivity.
    - reflexivity. }
  assert (Hadd : name = "addTask" ->
                 out = (Result ("Task added successfully with ID: " ++ generateId n),
                        mkComponent (tasks c)
                          (mkTask (generateId n) (Args.title args) false
                                  (priority_or_medium (Args.priority args)) (now n)
                                  (Some [])
                             :: tasksState c))).
  { intros E. subst out name args. unfold dispatch. cbv zeta. rewrite E. reflexivity. }
  split; [|split; [|split; [|split; [|split; [|split; [|split]]]]]].
  - split.
    + intros He Hin. rewrite (Hknown Hin) in He. discriminate He.
    + intros Hout. subst out name. rewrite (dispatch_unknown _ _ _ _ _ _ _ Hout).
      reflexivity.
  - intros Hout. apply dispatch_unknown. exact Hout.
  - exact Hadd.
  - intros p Hp Hne. rewrite Hp. apply priority_or_medium_given. exact Hne.
  - intros [-> | ->]; reflexivity.
  - intros E p Hp Hne. rewrite (Hadd E), Hp, (priority_or_medium_given p Hne).
    reflexivity.
  - intros E Hp. rewrite (Hadd E). destruct Hp as [-> | ->]; reflexivity.
  - intros E Hid.
    assert (Heng : updateStatusRecursive (tasksState c) None (Args.completed args)
                   = (tasksState c, false)) by apply updateList_undefined.
    assert (Hout : out = (Result "Task with ID undefined not found.", c)).
    { subst out name args. unfold dispatch. cbv zeta. rewrite E.
      cbn [String.eqb Ascii.eqb Bool.eqb andb].
      unfold executeUpdateTaskStatus. run_monad. rewrite Hid, Heng.
      cbn [fst snd]. rewrite andb_false_r. destruct c; reflexivity. }
    split; [exact Hout|]. split; [|exact Heng].
    rewrite Hout, Heng. reflexivity.
Qed.

(** C9, the claim as stated fails: a priority outside the enum is
    stored, and an [updateTaskStatus] without its required [taskId] goes
    to the engine; neither call meets the schema, neither gets an error
    result. *)
Lemma dispatch_accepts_malformed_args :
  meets_schema add_urgent_X = false
  /\ dispatch JS.ascii_toLowerCase sample_generateId sample_now sample_eager 0
              add_urgent_X (mkComponent scenario_forest scenario_forest)
     = (Result "Task added successfully with ID: t0",
        mkComponent scenario_forest
          (mkTask "t0" "X" false "urgent" 0 (Some []) :: scenario_forest))
  /\ existsb (String.eqb "urgent") priority_enum = false
  /\ meets_schema update_nothing = false
  /\ dispatch JS.ascii_toLowerCase sample_generateId sample_now sample_eager 0
              update_nothing (mkComponent scenario_forest scenario_forest)
     = (Result "Task with ID undefined not found.",
        mkComponent scenario_forest scenario_forest).
Proof. repeat split. Qed.

(** ** The scenarios of the specification, run through the theorems *)

(** Scenario A: the new task becomes the second subtask of task ["1"]. *)
Example scenario_A :
  addSubtaskRecursive JS.ascii_toLowerCase scenario_forest "Review project"
                      read_documentation
  = ([ mkTask "1" "Review project requirements" false "high" 0
         (Some [ mkTask "2" "Check email specs" false "medium" 0 None;
                 read_documentation ]);
       mkTask "3" "Buy coffee beans" true "low" 0 None ],
     true).
Proof. reflexivity. Qed.

(** Scenario B: task ["3"] goes, tasks ["1"] and ["2"] stay. *)
Example scenario_B :
  findAndRemoveRecursive JS.ascii_toLowerCase scenario_forest None (Some "coffee")
  = ([ mkTask "1" "Review project requirements" false "high" 0
         (Some [ mkTask "2" "Check email specs" false "medium" 0 None ]) ],
     1).
Proof. reflexivity. Qed.

(** A match takes its subtree with it and counts once: the title of task
    ["1"] and that of its subtask ["2"] both contain ["ec"]. *)
Example remove_counts_top_level_matches :
  findAndRemoveRecursive JS.ascii_toLowerCase scenario_forest None (Some "EC")
  = ([ mkTask "3" "Buy coffee beans" true "low" 0 None ], 1).
Proof. reflexivity. Qed.

(** Scenario D: neither [taskId] nor [searchTitle]. *)
Example scenario_D :
  findAndRemoveRecursive JS.ascii_toLowerCase scenario_forest None None
  = (scenario_forest, 0).
Proof. reflexivity. Qed.

(** C6 on the scenario forest: the id ["9"] occurs nowhere in it. *)
Lemma absent_id_is_noop_scenario :
  ~ In "9" (ids scenario_forest)
  /\ (toggleTaskRecursive scenario_forest "9" = scenario_forest
      /\ deleteTaskRecursive scenario_forest "9" = scenario_forest
      /\ updateStatusRecursive scenario_forest (Some "9") true
         = (scenario_forest, false)).
Proof.
  assert (H : ~ In "9" (ids scenario_forest)).
  { vm_compute. intros [H|[H|[H|[]]]]; discriminate H. }
  split; [exact H|].
  exact (absent_id_is_noop scenario_forest "9" true H).
Defined.

(** C7 on scenario C: [setCompletion(F, "2", true)] sets the flag of
    task ["2"] and leaves tasks ["1"] and ["3"] as they were. *)
Lemma updateStatusRecursive_frame_scenario :
  count_occ string_dec (ids scenario_forest) "2" = 1
  /\ updateStatusRecursive scenario_forest (Some "2") true
     = ([ mkTask "1" "Review project requirements" false "high" 0
            (Some [ mkTask "2" "Check email specs" true "medium" 0 None ]);
          mkTask "3" "Buy coffee beans" true "low" 0 None ],
        true)
  /\ exists F' pre d n n' post,
      updateStatusRecursive scenario_forest (Some "2") true = (F', true)
      /\ rows 0 scenario_forest = pre ++ (d, n) :: post
      /\ id n = "2"
      /\ rows 0 F' = pre ++ (d, n') :: post
      /\ isCompleted n' = true
      /\ id n' = id n
      /\ title n' = title n
      /\ priority n' = priority n
      /\ createdAt n' = createdAt n
      /\ subtasks n' = subtasks n.
Proof.
  split; [reflexivity|]. split; [reflexivity|].
  apply (updateStatusRecursive_frame scenario_forest "2" true). reflexivity.
Defined.

(** C1 on the scenario forest with the query ["EMAIL"]: the first match
    is the subtask ["2"], after the row of its parent. *)
Lemma addSubtaskRecursive_first_match_scenario :
  exists F',
    addSubtaskRecursive JS.ascii_toLowerCase scenario_forest "EMAIL" read_documentation
    = (F', true)
    /\ rows 0 F'
       = [ (0, mkTask "1" "Review project requirements" false "high" 0 (Some [])) ]
           ++ (1, mkTask "2" "Check email specs" false "medium" 0 (Some []))
           :: below 1 [ (0, mkTask "3" "Buy coffee beans" true "low" 0 None) ]
           ++ rows 2 [read_documentation]
           ++ beyond 1 [ (0, mkTask "3" "Buy coffee beans" true "low" 0 None) ]
    /\ List.length (rows 0 F')
       = List.length (rows 0 scenario_forest) + List.length (rows 0 [read_documentation])
    /\ (children read_documentation = [] ->
        List.length (rows 0 F') = S (List.length (rows 0 scenario_forest))).
Proof.
  apply (proj2 (addSubtaskRecursive_first_match JS.ascii_toLowerCase scenario_forest
                  "EMAIL" read_documentation)
               [ (0, mkTask "1" "Review project requirements" false "high" 0 (Some [])) ]
               (1, mkTask "2" "Check email specs" false "medium" 0 None)
               [ (0, mkTask "3" "Buy coffee beans" true "low" 0 None) ]).
  - reflexivity.
  - repeat constructor.
  - reflexivity.
Defined.

(** C10 on the scenario forest. *)
Lemma addSubtaskRecursive_empty_query_scenario :
  JS.ascii_toLowerCase "" = ""
  /\ addSubtaskRecursive JS.ascii_toLowerCase scenario_forest "" read_documentation
     = ([ mkTask "1" "Review project requirements" false "high" 0
            (Some [ mkTask "2" "Check email specs" false "medium" 0 None;
                    read_documentation ]);
          mkTask "3" "Buy coffee beans" true "low" 0 None ],
        true).
Proof.
  split; [reflexivity|].
  apply (addSubtaskRecursive_empty_query JS.ascii_toLowerCase
           (mkTask "1" "Review project requirements" false "high" 0
              (Some [ mkTask "2" "Check email specs" false "medium" 0 None ]))
           [ mkTask "3" "Buy coffee beans" true "low" 0 None ]
           read_documentation).
  reflexivity.
Defined.

(** C5 on scenario D, with an empty [searchTitle] and no [taskId]. *)
Lemma findAndRemoveRecursive_empty_title_scenario :
  (Some "" = None \/ Some "" = Some "")
  /\ ((forall t, matchTitle JS.ascii_toLowerCase (Some "") t = false)
      /\ findAndRemoveRecursive JS.ascii_toLowerCase scenario_forest None (Some "")
         = findAndRemoveRecursive JS.ascii_toLowerCase scenario_forest None None
      /\ (@None string = None \/ None = Some "" ->
          (forall t, matchId None t || matchTitle JS.ascii_toLowerCase (Some "") t = false)
          /\ findAndRemoveRecursive JS.ascii_toLowerCase scenario_forest None (Some "")
             = (scenario_forest, 0))).
Proof.
  split; [right; reflexivity|].
  apply (findAndRemoveRecursive_empty_title JS.ascii_toLowerCase scenario_forest
           None (Some "")).
  right; reflexivity.
Defined.

(** C3 on the scenario forest: [addTask({title: "X"})], then [getTasks]. *)
Lemma getTasks_reports_render_binding_scenario :
  List.map FunctionResponse.response
           (fst (toolLoop JS.ascii_toLowerCase sample_generateId sample_now
                          sample_eager 0 [add_X; get_tasks]
                          (mkComponent scenario_forest scenario_forest)))
  = [ Result ("Task added successfully with ID: " ++ sample_generateId 0);
      Tasks (simplify scenario_forest) ]
  /\ tasksState
       (snd (toolLoop JS.ascii_toLowerCase sample_generateId sample_now
                      sample_eager 0 [add_X]
                      (mkComponent scenario_forest scenario_forest)))
     = mkTask (sample_generateId 0) (Args.title (FunctionCall.args add_X)) false
              (priority_or_medium (Args.priority (FunctionCall.args add_X)))
              (sample_now 0) (Some [])
         :: scenario_forest
  /\ simplify
       (tasksState
          (snd (toolLoop JS.ascii_toLowerCase sample_generateId sample_now
                         sample_eager 0 [add_X]
                         (mkComponent scenario_forest scenario_forest))))
     <> simplify scenario_forest.
Proof.
  apply (proj2 (getTasks_reports_render_binding JS.ascii_toLowerCase
                  sample_generateId sample_now sample_eager)
               scenario_forest add_X get_tasks).
  - reflexivity.
  - reflexivity.
Defined.

(** * Further properties of the engine *)

(** ** Toggling *)

Lemma toggleTask_id id0 t : id (toggleTask id0 t) = id t.
Proof.
  rewrite toggleTask_eq. destruct (id t =? id0); [destruct t; reflexivity|].
  destruct (subtasks t); destruct t; reflexivity.
Qed.

Lemma toggle_twice id0 :
  forall l, toggleTaskRecursive (toggleTaskRecursive l id0) id0 = l.
Proof.
  induction l as [|t ts IHsub IHts] using forest_ind; [reflexivity|].
  unfold toggleTaskRecursive in *. simpl. rewrite IHts. f_equal.
  rewrite (toggleTask_eq id0 (toggleTask id0 t)), toggleTask_id.
  rewrite (toggleTask_eq id0 t).
  destruct (id t =? id0).
  - destruct t as [i ti c p ca s]. unfold with_isCompleted. simpl.
    rewrite negb_involutive. reflexivity.
  - destruct (subtasks t) as [subs|] eqn:Es.
    + assert (Hs : subtasks (with_subtasks t (Some (toggleTaskRecursive subs id0)))
                   = Some (toggleTaskRecursive subs id0)) by reflexivity.
      rewrite Hs. unfold toggleTaskRecursive. rewrite (IHsub subs eq_refl).
      rewrite <- Es. destruct t; reflexivity.
    + rewrite Es. reflexivity.
Qed.

(** X1. Toggling twice by the same id gives the forest back, whether or not
    the id occurs and however often. *)
Theorem toggleTaskRecursive_involutive (F : list Task) (id0 : string) :
  toggleTaskRecursive (toggleTaskRecursive F id0) id0 = F.
Proof. apply toggle_twice. Qed.

Lemma toggle_once id0 :
  forall l d,
    count_occ string_dec (ids l) id0 = 1 ->
    exists pre k n post,
      rows d l = pre ++ (k, n) :: post
      /\ id n = id0
      /\ rows d (toggleTaskRecursive l id0)
         = pre ++ (k, with_isCompleted n (negb (isCompleted n))) :: post.
Proof.
  induction l as [|t ts IHsub IHts] using forest_ind; intros d H.
  - discriminate H.
  - rewrite ids_cons in H.
    assert (Hcons : toggleTaskRecursive (t :: ts) id0
                    = toggleTask id0 t :: toggleTaskRecursive ts id0) by reflexivity.
    rewrite Hcons, toggleTask_eq.
    destruct (string_dec (id t) id0) as [E|E].
    + rewrite count_occ_cons_eq, count_occ_app in H by assumption.
      assert (Ht : ~ In id0 (ids ts))
        by (apply (count_occ_not_In string_dec); lia).
      rewrite (proj2 (String.eqb_eq _ _) E), (toggle_absent id0 ts Ht).
      exists [], d, (alone t), (rows (S d) (children t) ++ rows d ts).
      split; [apply rows_cons|]. split; [destruct t; exact E|].
      rewrite rows_cons, alone_with_isCompleted. destruct t; reflexivity.
    + rewrite count_occ_cons_neq, count_occ_app in H by assumption.
      rewrite (proj2 (String.eqb_neq _ _) E).
      destruct (In_dec string_dec id0 (ids ts)) as [Hin|Hout].
      * assert (Hts : count_occ string_dec (ids ts) id0 > 0)
          by (apply count_occ_In; exact Hin).
        assert (Hc : ~ In id0 (ids (children t)))
          by (apply (count_occ_not_In string_dec); lia).
        assert (H1 : count_occ string_dec (ids ts) id0 = 1) by lia.
        destruct (IHts d H1) as (pre & k & n & post & Hr & Hn & Hr').
        exists ((d, alone t) :: rows (S d) (children t) ++ pre), k, n, post.
        assert (Hsame : match subtasks t with
                        | Some subs => with_subtasks t (Some (toggleTaskRecursive subs id0))
                        | None => t
                        end = t).
        { destruct (subtasks t) as [subs|] eqn:Es; [|reflexivity].
          rewrite (children_Some _ _ Es) in Hc.
          rewrite (toggle_absent id0 subs Hc), <- Es. apply with_subtasks_same. }
        rewrite Hsame, !rows_cons, Hr, Hr'. simpl. rewrite <- !app_assoc.
        repeat split; assumption.
      * assert (Hts : count_occ string_dec (ids ts) id0 = 0)
          by (apply count_occ_not_In; exact Hout).
        assert (H1 : count_occ string_dec (ids (children t)) id0 = 1) by lia.
        destruct (subtasks t) as [subs|] eqn:Es.
        2:{ rewrite (children_None _ Es) in H1. discriminate H1. }
        rewrite (children_Some _ _ Es) in H1.
        destruct (IHsub subs eq_refl (S d) H1) as (pre & k & n & post & Hr & Hn & Hr').
        exists ((d, alone t) :: pre), k, n, (post ++ rows d ts).
        rewrite (toggle_absent id0 ts Hout).
        rewrite !rows_cons, (children_Some _ _ Es),
          (alone_with_subtasks _ _ (toggleTaskRecursive subs id0) Es).
        assert (Hc' : children (with_subtasks t (Some (toggleTaskRecursive subs id0)))
                      = toggleTaskRecursive subs id0) by reflexivity.
        rewrite Hc', Hr, Hr'. simpl. rewrite <- !app_assoc.
        repeat split; assumption.
Qed.

(** X2. When the id occurs on exactly one node, toggling returns a
    forest with the same rows but for the row of that node: there
    [isCompleted] is the negation of what it was, and the id, the title,
    the priority, the time stamp and the subtasks marker are what they
    were. *)
Theorem toggleTaskRecursive_frame (F : list Task) (id0 : string) :
  count_occ string_dec (ids F) id0 = 1 ->
  exists pre d n n' post,
    rows 0 F = pre ++ (d, n) :: post
    /\ id n = id0
    /\ rows 0 (toggleTaskRecursive F id0) = pre ++ (d, n') :: post
    /\ isCompleted n' = negb (isCompleted n)
    /\ id n' = id n
    /\ title n' = title n
    /\ priority n' = priority n
    /\ createdAt n' = createdAt n
    /\ subtasks n' = subtasks n.
Proof.
  intros H.
  destruct (toggle_once id0 F 0 H) as (pre & d & n & post & Hr & Hn & Hr').
  exists pre, d, n, (with_isCompleted n (negb (isCompleted n))), post.
  split; [exact Hr|]. split; [exact Hn|]. split; [exact Hr'|].
  apply with_isCompleted_fields.
Qed.

(** X2 on the scenario forest: toggling ["3"], which is completed, leaves
    it not completed and the other tasks as they were. *)
Lemma toggleTaskRecursive_frame_scenario :
  count_occ string_dec (ids scenario_forest) "3" = 1
  /\ toggleTaskRecursive scenario_forest "3"
     = [ mkTask "1" "Review project requirements" false "high" 0
           (Some [ mkTask "2" "Check email specs" false "medium" 0 None ]);
         mkTask "3" "Buy coffee beans" false "low" 0 None ]
  /\ exists pre d n n' post,
      rows 0 scenario_forest = pre ++ (d, n) :: post
      /\ id n = "3"
      /\ rows 0 (toggleTaskRecursive scenario_forest "3") = pre ++ (d, n') :: post
      /\ isCompleted n' = negb (isCompleted n)
      /\ id n' = id n
      /\ title n' = title n
      /\ priority n' = priority n
      /\ createdAt n' = createdAt n
      /\ subtasks n' = subtasks n.
Proof.
  split; [reflexivity|]. split; [reflexivity|].
  apply (toggleTaskRecursive_frame scenario_forest "3"). reflexivity.
Defined.

(** ** Deleting *)

Lemma deleteTask_id id0 t : id (deleteTask id0 t) = id t.
Proof. rewrite deleteTask_eq. destruct t; reflexivity. Qed.

Lemma delete_delete a b :
  forall l,
    deleteTaskRecursive (deleteTaskRecursive l a) b
    = deleteTaskRecursive (deleteTaskRecursive l b) a.
Proof.
  induction l as [|t ts IHsub IHts] using forest_ind; [reflexivity|].
  rewrite (deleteTaskRecursive_cons t ts a), (deleteTaskRecursive_cons t ts b).
  destruct (id t =? a) eqn:Ea; destruct (id t =? b) eqn:Eb.
  - exact IHts.
  - rewrite deleteTaskRecursive_cons, deleteTask_id, Ea. exact IHts.
  - rewrite deleteTaskRecursive_cons, deleteTask_id, Eb. exact IHts.
  - rewrite !deleteTaskRecursive_cons, !deleteTask_id, Ea, Eb, IHts. f_equal.
    rewrite (deleteTask_eq b (deleteTask a t)), (deleteTask_eq a (deleteTask b t)).
    rewrite (deleteTask_eq a t), (deleteTask_eq b t).
    destruct (subtasks t) as [subs|] eqn:Es.
    + unfold with_subtasks at 1 3. simpl.
      rewrite (IHsub subs eq_refl). destruct t; reflexivity.
    + destruct t; reflexivity.
Qed.

(** X3. Deletions by two ids commute. *)
Theorem deleteTaskRecursive_commute (F : list Task) (a b : string) :
  deleteTaskRecursive (deleteTaskRecursive F a) b
  = deleteTaskRecursive (deleteTaskRecursive F b) a.
Proof. apply delete_delete. Qed.

Lemma delete_ids_incl id0 :
  forall l, incl (ids (deleteTaskRecursive l id0)) (ids l).
Proof.
  induction l as [|t ts IHsub IHts] using forest_ind; [intros x H; exact H|].
  rewrite deleteTaskRecursive_cons, (ids_cons t ts).
  destruct (id t =? id0).
  - intros x H. right. apply in_or_app. right. exact (IHts x H).
  - rewrite ids_cons, deleteTask_id. intros x [H|H]; [left; exact H|].
    right. apply in_app_or in H. apply in_or_app. destruct H as [H|H].
    + left. rewrite deleteTask_eq in H. unfold children in *.
      destruct (subtasks t) as [subs|] eqn:Es; simpl in H; [|exact H].
      exact (IHsub subs eq_refl x H).
    + right. exact (IHts x H).
Qed.

(** X4. After a deletion the id occurs nowhere in the forest, at any depth,
    and no id has appeared that was not there before. *)
Theorem deleteTaskRecursive_removes_id (F : list Task) (id0 : string) :
  ~ In id0 (ids (deleteTaskRecursive F id0))
  /\ incl (ids (deleteTaskRecursive F id0)) (ids F).
Proof. split; [apply delete_removes|apply delete_ids_incl]. Qed.

Lemma reduce_delete toLowerCase id0 :
  id0 <> "" ->
  forall l acc count,
    fst (St.reduce (filterTask toLowerCase (Some id0) None) l acc count)
    = acc ++ deleteTaskRecursive l id0.
Proof.
  intros Hne.
  assert (Hm : forall t, matchId (Some id0) t || matchTitle toLowerCase None t
                         = (id t =? id0)).
  { intros t. unfold matchId, matchTitle, JS.truthy, JS.strict_eq.
    rewrite (proj2 (String.eqb_neq id0 "") Hne), orb_false_r. reflexivity. }
  induction l as [|t ts IHsub IHts] using forest_ind; intros acc count.
  - simpl. rewrite app_nil_r. reflexivity.
  - rewrite reduce_state_cons, filterTask_eq, Hm, deleteTaskRecursive_cons.
    destruct (id t =? id0); [apply IHts|].
    rewrite deleteTask_eq.
    destruct (subtasks t) as [subs|] eqn:Es.
    + specialize (IHsub subs eq_refl [] count).
      destruct (St.reduce (filterTask toLowerCase (Some id0) None) subs [] count)
        as [subs' c']. cbn [fst] in IHsub. simpl in IHsub. subst subs'.
      rewrite IHts, <- app_assoc. reflexivity.
    + rewrite IHts, <- app_assoc, <- Es, with_subtasks_same. reflexivity.
Qed.

(** X5. The delete button and [removeTask] by id agree: for a non-empty id
    and no [searchTitle], [findAndRemoveRecursive] returns the forest that
    [deleteTaskRecursive] returns. *)
Theorem findAndRemoveRecursive_by_id_is_delete
        (toLowerCase : string -> string) (F : list Task) (id0 : string) :
  id0 <> "" ->
  fst (findAndRemoveRecursive toLowerCase F (Some id0) None)
  = deleteTaskRecursive F id0.
Proof.
  intros Hne. exact (reduce_delete toLowerCase id0 Hne F [] 0).
Qed.

Lemma findAndRemoveRecursive_by_id_is_delete_scenario :
  "2" <> ""
  /\ fst (findAndRemoveRecursive JS.ascii_toLowerCase scenario_forest (Some "2") None)
     = deleteTaskRecursive scenario_forest "2".
Proof.
  assert (H : "2" <> "") by discriminate.
  split; [exact H|].
  exact (findAndRemoveRecursive_by_id_is_delete JS.ascii_toLowerCase
           scenario_forest "2" H).
Defined.

(** ** Removing, once more *)

Lemma filter_disjoint_length {A} (f g : A -> bool) (l : list A) :
  (forall x, f x = true -> g x = false) ->
  List.length (List.filter f l) + List.length (List.filter g l) <= List.length l.
Proof.
  intros H. induction l as [|x l IH]; [reflexivity|].
  simpl. destruct (f x) eqn:Ef.
  - rewrite (H x Ef). simpl. lia.
  - destruct (g x); simpl; lia.
Qed.

Section RemoveTaskMore.

Variable toLowerCase : string -> string.
Variables taskId searchTitle : option string.

Local Abbreviation matched :=
  (fun task => matchId taskId task || matchTitle toLowerCase searchTitle task).
Local Abbreviation step := (filterTask toLowerCase taskId searchTitle).

(** When no node of [l] matches, the loop pushes every task as it is. *)
Lemma reduce_no_matching_row :
  forall l d acc count,
    Forall (fun r : Row => matched (snd r) = false) (rows d l) ->
    St.reduce step l acc count = (acc ++ l, count).
Proof.
  induction l as [|t ts IHsub IHts] using forest_ind; intros d acc count H.
  - simpl. rewrite app_nil_r. reflexivity.
  - rewrite rows_cons in H. inversion H as [|r rs Hr Hrs]; subst.
    apply Forall_app in Hrs. destruct Hrs as [Hc Hts].
    cbn [snd] in Hr. rewrite (matched_alone toLowerCase taskId searchTitle t) in Hr.
    rewrite reduce_state_cons, filterTask_eq, Hr.
    destruct (subtasks t) as [subs|] eqn:Es.
    + rewrite (children_Some _ _ Es) in Hc.
      rewrite (IHsub subs eq_refl (S d) [] count Hc). simpl.
      rewrite (IHts d _ count Hts), <- app_assoc, <- Es, with_subtasks_same.
      reflexivity.
    + rewrite (IHts d _ count Hts), <- app_assoc. reflexivity.
Qed.

(** Without a top-level match there is no match at all. *)
Lemma no_top_match_no_match :
  forall l d,
    List.filter (top_match matched) (marks matched false d l) = [] ->
    Forall (fun r : Row => matched (snd r) = false) (rows d l).
Proof.
  induction l as [|t ts IHsub IHts] using forest_ind; intros d H.
  - constructor.
  - rewrite marks_cons in H. simpl in H.
    unfold top_match at 1 in H. simpl in H.
    rewrite (matched_alone toLowerCase taskId searchTitle t) in H.
    destruct (matchId taskId t || matchTitle toLowerCase searchTitle t) eqn:Em;
      [discriminate H|].
    rewrite filter_app in H. apply app_eq_nil in H. destruct H as [Hc Hts].
    rewrite rows_cons. constructor.
    + cbn [snd]. rewrite (matched_alone toLowerCase taskId searchTitle t). exact Em.
    + apply Forall_app. split; [|exact (IHts d Hts)].
      unfold children in *. destruct (subtasks t) as [subs|]; [|constructor].
      exact (IHsub subs eq_refl (S d) Hc).
Qed.

Lemma kept_rows_no_match (l : list (Row * bool)) :
  Forall (fun r : Row => matched (snd r) = false)
         (List.map fst (List.filter (kept matched) l)).
Proof.
  apply Forall_forall. intros r Hin.
  apply in_map_iff in Hin. destruct Hin as (x & <- & Hx).
  apply filter_In in Hx. destruct Hx as [_ Hk].
  unfold kept in Hk. apply andb_true_iff in Hk. destruct Hk as [_ Hk].
  apply negb_true_iff in Hk. exact Hk.
Qed.

End RemoveTaskMore.

(** X6. Removing a second time with the same arguments removes nothing: the
    forest stays as the first removal left it and the count is 0. *)
Theorem findAndRemoveRecursive_idempotent
        (toLowerCase : string -> string)
        (F : list Task) (taskId searchTitle : option string) :
  findAndRemoveRecursive toLowerCase
    (fst (findAndRemoveRecursive toLowerCase F taskId searchTitle))
    taskId searchTitle
  = (fst (findAndRemoveRecursive toLowerCase F taskId searchTitle), 0).
Proof.
  destruct (reduce_filterTask toLowerCase taskId searchTitle F 0 [] 0)
    as (F' & Hred & Hrows).
  unfold findAndRemoveRecursive, filterList. rewrite Hred. cbn [fst].
  apply (reduce_no_matching_row toLowerCase taskId searchTitle F' 0 [] 0).
  rewrite Hrows. apply kept_rows_no_match.
Qed.

(** X7. [removedCount] is 0 exactly when no node of the forest passes the
    test, and exactly when the forest comes back unchanged. *)
Theorem findAndRemoveRecursive_zero_iff_unchanged
        (toLowerCase : string -> string)
        (F : list Task) (taskId searchTitle : option string) :
  let matched :=
    fun task => matchId taskId task || matchTitle toLowerCase searchTitle task in
  let result := findAndRemoveRecursive toLowerCase F taskId searchTitle in
  (snd result = 0 <-> Forall (fun r : Row => matched (snd r) = false) (rows 0 F))
  /\ (snd result = 0 <-> fst result = F).
Proof.
  intros matched result.
  destruct (reduce_filterTask toLowerCase taskId searchTitle F 0 [] 0)
    as (F' & Hred & Hrows).
  assert (Hres : result
                 = (F', List.length (List.filter (top_match matched)
                                                 (marks matched false 0 F))))
    by exact Hred.
  assert (Hzero : snd result = 0 ->
                  Forall (fun r : Row => matched (snd r) = false) (rows 0 F)).
  { rewrite Hres. cbn [snd]. intros H0.
    apply (no_top_match_no_match toLowerCase taskId searchTitle F 0).
    apply length_zero_iff_nil. exact H0. }
  assert (Hnone : Forall (fun r : Row => matched (snd r) = false) (rows 0 F) ->
                  result = (F, 0)).
  { intros H.
    exact (reduce_no_matching_row toLowerCase taskId searchTitle F 0 [] 0 H). }
  split; split.
  - exact Hzero.
  - intros H. rewrite (Hnone H). reflexivity.
  - intros H0. rewrite (Hnone (Hzero H0)). reflexivity.
  - rewrite Hres. cbn [fst snd]. intros ->.
    pose proof (filter_disjoint_length (kept matched) (top_match matched)
                  (marks matched false 0 F)) as Hlen.
    assert (Hdis : forall x, kept matched x = true -> top_match matched x = false).
    { intros x. unfold kept, top_match.
      destruct (snd x), (matched (snd (fst x))); simpl; congruence. }
    specialize (Hlen Hdis).
    assert (Hk : List.length (List.filter (kept matched) (marks matched false 0 F))
                 = List.length (marks matched false 0 F)).
    { transitivity (List.length (rows 0 F)).
      - rewrite Hrows. symmetry. apply length_map.
      - rewrite <- (marks_rows matched F false 0). apply length_map. }
    lia.
Qed.

(** X8. [removedCount] counts removals, not nodes: it never exceeds the number
    of nodes that left the forest, since a removed node takes its subtree
    with it uncounted. *)
Theorem findAndRemoveRecursive_count_bound
        (toLowerCase : string -> string)
        (F : list Task) (taskId searchTitle : option string) :
  let result := findAndRemoveRecursive toLowerCase F taskId searchTitle in
  List.length (rows 0 (fst result)) + snd result <= List.length (rows 0 F).
Proof.
  intros result.
  destruct (reduce_filterTask toLowerCase taskId searchTitle F 0 [] 0)
    as (F' & Hred & Hrows).
  set (matched :=
         fun task => matchId taskId task || matchTitle toLowerCase searchTitle task)
    in *.
  assert (Hres : result
                 = (F', List.length (List.filter (top_match matched)
                                                 (marks matched false 0 F))))
    by exact Hred.
  rewrite Hres. cbn [fst snd].
  rewrite Hrows, length_map, <- (marks_rows matched F false 0), length_map.
  apply filter_disjoint_length.
  intros x. unfold kept, top_match.
  destruct (snd x), (matched (snd (fst x))); simpl; congruence.
Qed.

(** ** Inserting and updating, once more *)

Lemma first_true_split {A} (f : A -> bool) (l : list A) :
  existsb f l = true ->
  exists pre x post,
    l = pre ++ x :: post /\ Forall (fun y => f y = false) pre /\ f x = true.
Proof.
  induction l as [|a l IH]; [discriminate|].
  simpl. destruct (f a) eqn:Ea.
  - intros _. exists [], a, l. repeat split; [constructor|exact Ea].
  - simpl. intros H. destruct (IH H) as (pre & x & post & -> & Hpre & Hx).
    exists (a :: pre), x, post. repeat split; [constructor; assumption|exact Hx].
Qed.

Lemma existsb_false_Forall {A} (f : A -> bool) (l : list A) :
  existsb f l = false -> Forall (fun y => f y = false) l.
Proof.
  induction l as [|a l IH]; [constructor|].
  simpl. intros H. apply orb_false_iff in H. destruct H as [Ha Hl].
  constructor; [exact Ha|exact (IH Hl)].
Qed.

(** X9. [success] tells whether some node of the forest, at any depth, has
    the query as its id or within its title. *)
Theorem addSubtaskRecursive_success_iff_match
        (toLowerCase : string -> string)
        (F : list Task) (parentQuery : string) (newSubtask : Task) :
  snd (addSubtaskRecursive toLowerCase F parentQuery newSubtask)
  = existsb (fun r : Row => isMatch toLowerCase parentQuery (snd r)) (rows 0 F).
Proof.
  destruct (existsb (fun r : Row => isMatch toLowerCase parentQuery (snd r))
                    (rows 0 F)) eqn:E.
  - destruct (first_true_split _ _ E) as (pre & r & post & Hrows & Hpre & Hr).
    destruct (updateInfo_first_match toLowerCase parentQuery newSubtask
                F 0 pre r post Hrows Hpre Hr) as (F' & Hu & _).
    unfold addSubtaskRecursive. rewrite Hu. reflexivity.
  - unfold addSubtaskRecursive.
    rewrite (updateInfo_no_match toLowerCase parentQuery newSubtask F 0 false
               (existsb_false_Forall _ _ E)).
    reflexivity.
Qed.

(** X10. [found] tells whether the id occurs in the forest, at any depth. *)
Theorem updateStatusRecursive_found_iff
        (F : list Task) (id0 : string) (completed : bool) :
  snd (updateStatusRecursive F (Some id0) completed) = true <-> In id0 (ids F).
Proof.
  split.
  - intros H. destruct (In_dec string_dec id0 (ids F)) as [Hin|Hout]; [exact Hin|].
    unfold updateStatusRecursive in H.
    rewrite (updateList_absent id0 completed F false Hout) in H. discriminate H.
  - apply updateList_finds.
Qed.

Lemma updateTask_id taskId b t found :
  id (fst (updateTask taskId b t found)) = id t.
Proof.
  rewrite updateTask_eq. destruct (JS.strict_eq (id t) taskId);
    [destruct t; reflexivity|].
  destruct (subtasks t) as [subs|]; [|reflexivity].
  destruct (updateList taskId b subs found). destruct t; reflexivity.
Qed.

(** The forest a second update returns does not depend on the first. *)
Lemma updateList_overwrite taskId b1 b2 :
  forall l f1 f2 f3,
    fst (updateList taskId b2 (fst (updateList taskId b1 l f1)) f2)
    = fst (updateList taskId b2 l f3).
Proof.
  induction l as [|t ts IHsub IHts] using forest_ind; intros f1 f2 f3;
    [reflexivity|].
  rewrite (updateList_cons taskId b1 t ts f1), (updateList_cons taskId b2 t ts f3).
  rewrite !updateTask_eq.
  destruct (JS.strict_eq (id t) taskId) eqn:Eid.
  - specialize (IHts true).
    destruct (updateList taskId b1 ts true) as [ts1 g1]. cbn [fst] in *.
    rewrite updateList_cons, updateTask_eq.
    assert (Hid : id (with_isCompleted t b1) = id t) by (destruct t; reflexivity).
    rewrite Hid, Eid.
    specialize (IHts true true).
    destruct (updateList taskId b2 ts1 true) as [ts2 g2].
    destruct (updateList taskId b2 ts true) as [ts3 g3]. cbn [fst] in *.
    rewrite IHts. destruct t; reflexivity.
  - destruct (subtasks t) as [subs|] eqn:Es.
    + pose proof (IHsub subs eq_refl f1 f2 f3) as Hsub.
      destruct (updateList taskId b1 subs f1) as [subs1 g1]. cbn [fst] in Hsub.
      pose proof (fun f2 f3 => IHts g1 f2 f3) as Hts.
      destruct (updateList taskId b1 ts g1) as [ts1 h1]. cbn [fst] in *.
      rewrite updateList_cons, updateTask_eq.
      assert (Hid : id (with_subtasks t (Some subs1)) = id t)
        by (destruct t; reflexivity).
      assert (Hsubs : subtasks (with_subtasks t (Some subs1)) = Some subs1)
        by reflexivity.
      rewrite Hid, Eid, Hsubs.
      destruct (updateList taskId b2 subs1 f2) as [subs2 g2].
      destruct (updateList taskId b2 subs f3) as [subs3 g3]. cbn [fst] in Hsub.
      specialize (Hts g2 g3).
      destruct (updateList taskId b2 ts1 g2) as [ts2 h2].
      destruct (updateList taskId b2 ts g3) as [ts3 h3]. cbn [fst] in *.
      rewrite Hts, Hsub. destruct t; reflexivity.
    + pose proof (fun f2 f3 => IHts f1 f2 f3) as Hts.
      destruct (updateList taskId b1 ts f1) as [ts1 h1]. cbn [fst] in *.
      rewrite updateList_cons, updateTask_eq, Eid, Es.
      specialize (Hts f2 f3).
      destruct (updateList taskId b2 ts1 f2) as [ts2 h2].
      destruct (updateList taskId b2 ts f3) as [ts3 h3]. cbn [fst] in *.
      rewrite Hts. reflexivity.
Qed.

(** X11. The last update wins: setting the flag of an id to [b1] and then to
    [b2] gives the forest, and the [found], of setting it to [b2] at
    once.  In particular an update is idempotent. *)
Theorem updateStatusRecursive_last_wins
        (F : list Task) (id0 : string) (b1 b2 : bool) :
  updateStatusRecursive (fst (updateStatusRecursive F (Some id0) b1)) (Some id0) b2
  = updateStatusRecursive F (Some id0) b2.
Proof.
  rewrite (surjective_pairing (updateStatusRecursive (fst _) _ _)).
  rewrite (surjective_pairing (updateStatusRecursive F (Some id0) b2)).
  f_equal.
  - apply updateList_overwrite.
  - destruct (In_dec string_dec id0 (ids F)) as [Hin|Hout].
    + unfold updateStatusRecursive.
      rewrite (updateList_finds id0 b2 F false Hin).
      apply updateList_finds. rewrite updateList_ids. exact Hin.
    + unfold updateStatusRecursive.
      rewrite (updateList_absent id0 b1 F false Hout). reflexivity.
Qed.

(** X12. An [undefined] task id equals no id: nothing is found and the forest
    comes back as it was. *)
Theorem updateStatusRecursive_undefined (F : list Task) (completed : bool) :
  updateStatusRecursive F None completed = (F, false).
Proof. apply updateList_undefined. Qed.

(** * Further properties of the tool loop *)

(** X14. Every invocation gets one response, in the order of the batch, under
    its own name and with its own invocation id. *)
Theorem toolLoop_responses_correlate
        (toLowerCase : string -> string) (generateId : nat -> string)
        (now : nat -> Z) (eager : nat -> bool)
        (calls : list FunctionCall.t) (n : nat) (c : Component) :
  List.map (fun r => (FunctionResponse.name r, FunctionResponse.id r))
           (fst (toolLoop toLowerCase generateId now eager n calls c))
  = List.map (fun call => (FunctionCall.name call, FunctionCall.id call)) calls.
Proof.
  revert n c. induction calls as [|call rest IH]; intros n c; [reflexivity|].
  rewrite toolLoop_cons.
  destruct (dispatch toLowerCase generateId now eager n call c) as [r c1].
  specialize (IH (S n) c1).
  destruct (toolLoop toLowerCase generateId now eager (S n) rest c1) as [rs c2].
  cbn [fst] in *. simpl. rewrite IH. reflexivity.
Qed.

(** X15. For an id that occurs in the state, [executeUpdateTaskStatus] always
    queues the update, but its text says so only when React has run the
    updater by the time [setTasks] returns; otherwise [found] is still
    [false] when it is read and the text is the one for a missing task. *)
Theorem executeUpdateTaskStatus_report
        (eager : nat -> bool) (n : nat) (args : Args.t) (c : Component)
        (id0 : string) :
  Args.taskId args = Some id0 ->
  In id0 (ids (tasksState c)) ->
  tasksState (snd (executeUpdateTaskStatus eager n args c))
  = fst (updateStatusRecursive (tasksState c) (Some id0) (Args.completed args))
  /\ fst (executeUpdateTaskStatus eager n args c)
     = Result (if eager n
               then "Task " ++ id0 ++ " marked as "
                      ++ (if Args.completed args then "completed" else "incomplete")
                      ++ "."
               else "Task with ID " ++ id0 ++ " not found.").
Proof.
  intros Hid Hin. split.
  - rewrite executeUpdateTaskStatus_state, Hid. reflexivity.
  - unfold executeUpdateTaskStatus. run_monad. rewrite Hid.
    unfold updateStatusRecursive.
    rewrite (updateList_finds id0 (Args.completed args) (tasksState c) false Hin).
    destruct (eager n); reflexivity.
Qed.

Lemma executeUpdateTaskStatus_report_scenario :
  Args.taskId (Args.mk "" None "" (Some "2") None true) = Some "2"
  /\ In "2" (ids scenario_forest)
  /\ tasksState
       (snd (executeUpdateTaskStatus sample_eager 0
               (Args.mk "" None "" (Some "2") None true)
               (mkComponent scenario_forest scenario_forest)))
     = fst (updateStatusRecursive scenario_forest (Some "2") true)
  /\ fst (executeUpdateTaskStatus sample_eager 0
            (Args.mk "" None "" (Some "2") None true)
            (mkComponent scenario_forest scenario_forest))
     = Result "Task with ID 2 not found.".
Proof.
  assert (Hin : In "2" (ids scenario_forest)) by (right; left; reflexivity).
  split; [reflexivity|]. split; [exact Hin|].
  exact (executeUpdateTaskStatus_report sample_eager 0
           (Args.mk "" None "" (Some "2") None true)
           (mkComponent scenario_forest scenario_forest) "2" eq_refl Hin).
Defined.

(** X17. The projection for the model shows every node of the forest, at its
    depth and in depth-first order, with its id, title, priority and
    completion flag. *)
Theorem simplify_shows_every_node (F : list Task) :
  simpleRows 0 (simplify F) = List.map simpleRow (rows 0 F).
Proof.
  generalize 0 as d. induction F as [|t ts IHsub IHts] using forest_ind; intros d.
  - reflexivity.
  - rewrite rows_cons. unfold simplify, simpleRows in *.
    cbn [List.map flat_map]. rewrite map_app, (IHts d).
    destruct t as [i ti c p ca [subs|]]; cbn [simplifyTask simpleRowsTask
      simple_id simple_title simple_priority simple_completed simple_subtasks
      subtasks id title priority isCompleted children List.map app].
    + rewrite (IHsub subs eq_refl (S d)). reflexivity.
    + reflexivity.
Qed.

(** * The order of the rendered tasks *)

Lemma insert_permutation {A} (cmp : A -> A -> Z) x :
  forall s, Permutation (Array.insert cmp x s) (x :: s).
Proof.
  induction s as [|y r IH]; [reflexivity|].
  simpl. destruct (cmp x y <=? 0)%Z; [reflexivity|].
  rewrite IH. apply perm_swap.
Qed.

Lemma sort_permutation {A} (cmp : A -> A -> Z) :
  forall l, Permutation (Array.sort cmp l) l.
Proof.
  induction l as [|x r IH]; [reflexivity|].
  simpl. rewrite insert_permutation, IH. reflexivity.
Qed.

(** Inserting before a head that does not come first. *)
Lemma insert_before {A} (cmp : A -> A -> Z) x s :
  match s with [] => True | y :: _ => (cmp x y <= 0)%Z end ->
  Array.insert cmp x s = x :: s.
Proof.
  destruct s as [|y r]; [reflexivity|].
  simpl. intros H. rewrite (proj2 (Z.leb_le _ _) H). reflexivity.
Qed.

(** Inserting after a prefix that comes first. *)
Lemma insert_after {A} (cmp : A -> A -> Z) x front back :
  Forall (fun y => (0 < cmp x y)%Z) front ->
  Array.insert cmp x (front ++ back) = front ++ Array.insert cmp x back.
Proof.
  induction 1 as [|y r Hy Hr IH]; [reflexivity|].
  simpl. rewrite (proj2 (Z.leb_gt _ _) Hy), IH. reflexivity.
Qed.

(** A stable sort on a two-valued key is a stable partition. *)
Lemma sort_completedLast :
  forall l,
    Array.sort completedLast l
    = List.filter (fun t => negb (isCompleted t)) l ++ List.filter isCompleted l.
Proof.
  induction l as [|x r IH]; [reflexivity|].
  simpl. rewrite IH. destruct (isCompleted x) eqn:Ex; simpl.
  - rewrite insert_after.
    + f_equal. apply insert_before.
      destruct (List.filter isCompleted r) as [|y ys] eqn:Ey; [exact I|].
      assert (Hy : isCompleted y = true).
      { assert (Hin : In y (List.filter isCompleted r)) by (rewrite Ey; left; reflexivity).
        apply filter_In in Hin. tauto. }
      unfold completedLast. rewrite Ex, Hy. simpl. lia.
    + apply Forall_forall. intros y Hin. apply filter_In in Hin.
      destruct Hin as [_ Hy]. apply negb_true_iff in Hy.
      unfold completedLast. rewrite Ex, Hy. simpl. lia.
  - apply insert_before.
    destruct (List.filter _ r ++ List.filter isCompleted r) as [|y ys]; [exact I|].
    unfold completedLast. rewrite Ex. destruct (isCompleted y); simpl; lia.
Qed.

Lemma insert_Forall {A} (cmp : A -> A -> Z) (P : A -> Prop) x :
  forall s, P x -> Forall P s -> Forall P (Array.insert cmp x s).
Proof.
  intros s Hx Hs.
  apply (Permutation_Forall (Permutation_sym (insert_permutation cmp x s))).
  constructor; assumption.
Qed.

Lemma insert_newestFirst_sorted x :
  forall s,
    StronglySorted notOlder s ->
    StronglySorted notOlder (Array.insert newestFirst x s).
Proof.
  induction 1 as [|y r Hr IH Hy]; [repeat constructor|].
  simpl. destruct (newestFirst x y <=? 0)%Z eqn:E.
  - apply Z.leb_le in E. unfold newestFirst in E.
    constructor; [constructor; assumption|].
    constructor; [unfold notOlder; lia|].
    eapply Forall_impl; [|exact Hy]. unfold notOlder. intros z Hz. lia.
  - apply Z.leb_gt in E. unfold newestFirst in E.
    constructor; [exact IH|].
    apply insert_Forall; [unfold notOlder; lia|exact Hy].
Qed.

Lemma sort_newestFirst_sorted :
  forall l, StronglySorted notOlder (Array.sort newestFirst l).
Proof.
  induction l as [|x r IH]; [constructor|].
  simpl. apply insert_newestFirst_sorted, IH.
Qed.

Lemma insert_newestFirst_filter (p : Task -> bool) x :
  forall s,
    StronglySorted notOlder s ->
    List.filter p (Array.insert newestFirst x s)
    = if p x then Array.insert newestFirst x (List.filter p s) else List.filter p s.
Proof.
  induction 1 as [|y r Hr IH Hy].
  - simpl. destruct (p x); reflexivity.
  - simpl. destruct (newestFirst x y <=? 0)%Z eqn:E.
    + simpl. destruct (p x) eqn:Ex; [|reflexivity].
      symmetry. apply insert_before.
      apply Z.leb_le in E. unfold newestFirst in *.
      destruct (p y).
      * exact E.
      * destruct (List.filter p r) as [|z zs] eqn:Ez; [exact I|].
        assert (Hin : In z r).
        { assert (Hz : In z (List.filter p r)) by (rewrite Ez; left; reflexivity).
          apply filter_In in Hz. tauto. }
        pose proof (proj1 (Forall_forall _ _) Hy z Hin) as Hzy.
        unfold notOlder in Hzy. lia.
    + simpl. rewrite IH. destruct (p y) eqn:Ey; [|reflexivity].
      destruct (p x); [|reflexivity].
      simpl. rewrite E. reflexivity.
Qed.

(** Sorting by time commutes with selecting. *)
Lemma sort_newestFirst_filter (p : Task -> bool) :
  forall l,
    List.filter p (Array.sort newestFirst l)
    = Array.sort newestFirst (List.filter p l).
Proof.
  induction l as [|x r IH]; [reflexivity|].
  simpl. rewrite insert_newestFirst_filter by apply sort_newestFirst_sorted.
  rewrite IH. destruct (p x); reflexivity.
Qed.

(** X18. The render lists the tasks that are not completed, newest first, and
    then the completed ones, newest first; every top-level task is listed
    once. *)
Theorem renderedTasks_groups (tasks : list Task) :
  renderedTasks tasks
  = Array.sort newestFirst (List.filter (fun t => negb (isCompleted t)) tasks)
      ++ Array.sort newestFirst (List.filter isCompleted tasks)
  /\ Permutation (renderedTasks tasks) tasks.
Proof.
  unfold renderedTasks. split.
  - rewrite sort_completedLast, !sort_newestFirst_filter. reflexivity.
  - rewrite !sort_permutation. reflexivity.
Qed.

Lemma StronglySorted_app {A} (R : A -> A -> Prop) (l1 l2 : list A) :
  StronglySorted R l1 -> StronglySorted R l2 ->
  (forall a b, In a l1 -> In b l2 -> R a b) ->
  StronglySorted R (l1 ++ l2).
Proof.
  induction 1 as [|x r Hr IH Hx]; intros H2 Hcross; [exact H2|].
  simpl. constructor.
  - apply IH; [exact H2|]. intros a b Ha Hb. apply Hcross; [right; exact Ha|exact Hb].
  - apply Forall_app. split; [exact Hx|].
    apply Forall_forall. intros b Hb. apply Hcross; [left; reflexivity|exact Hb].
Qed.

Lemma StronglySorted_weaken {A} (R R' : A -> A -> Prop) (P : A -> Prop) (l : list A) :
  (forall a b, P a -> P b -> R a b -> R' a b) ->
  Forall P l -> StronglySorted R l -> StronglySorted R' l.
Proof.
  intros Himp HP. induction 1 as [|x r Hr IH Hx]; [constructor|].
  inversion HP as [|y ys Px Pr]; subst.
  constructor; [exact (IH Pr)|].
  apply Forall_forall. intros b Hb.
  apply Himp; [exact Px| |].
  - exact (proj1 (Forall_forall _ _) Pr b Hb).
  - exact (proj1 (Forall_forall _ _) Hx b Hb).
Qed.

Lemma sorted_group (c : bool) (l : list Task) :
  Forall (fun t => isCompleted t = c)
         (Array.sort newestFirst (List.filter (fun t => Bool.eqb (isCompleted t) c) l)).
Proof.
  apply (Permutation_Forall (Permutation_sym (sort_permutation newestFirst _))).
  apply Forall_forall. intros t Ht. apply filter_In in Ht.
  destruct Ht as [_ Ht]. apply Bool.eqb_prop in Ht. exact Ht.
Qed.

(** X19. In the rendered list a task that is not completed never comes after
    a completed one, and among tasks that agree on completion a newer one
    never comes after an older one. *)
Theorem renderedTasks_sorted (tasks : list Task) :
  StronglySorted listedBefore (renderedTasks tasks).
Proof.
  unfold renderedTasks.
  rewrite sort_completedLast, !sort_newestFirst_filter.
  rewrite (filter_ext (fun t => negb (isCompleted t))
                      (fun t => Bool.eqb (isCompleted t) false))
    by (intros t; destruct (isCompleted t); reflexivity).
  rewrite (filter_ext isCompleted (fun t => Bool.eqb (isCompleted t) true))
    by (intros t; destruct (isCompleted t); reflexivity).
  apply StronglySorted_app.
  - apply (StronglySorted_weaken notOlder listedBefore
             (fun t => isCompleted t = false)).
    + intros a b Ha Hb Hab. right. split; [congruence|exact Hab].
    + apply sorted_group.
    + apply sort_newestFirst_sorted.
  - apply (StronglySorted_weaken notOlder listedBefore
             (fun t => isCompleted t = true)).
    + intros a b Ha Hb Hab. right. split; [congruence|exact Hab].
    + apply sorted_group.
    + apply sort_newestFirst_sorted.
  - intros a b Ha Hb. left. split.
    + exact (proj1 (Forall_forall _ _) (sorted_group false tasks) a Ha).
    + exact (proj1 (Forall_forall _ _) (sorted_group true tasks) b Hb).
Qed.

Lemma sort_same_stamp (k : Z) :
  forall l,
    Forall (fun t => createdAt t = k) l -> Array.sort newestFirst l = l.
Proof.
  induction 1 as [|x r Hx Hr IH]; [reflexivity|].
  simpl. rewrite IH. apply insert_before.
  destruct r as [|y ys]; [exact I|].
  inversion Hr; subst. unfold newestFirst. lia.
Qed.

Lemma filter_filter_imp {A} (q p : A -> bool) :
  (forall t, q t = true -> p t = true) ->
  forall l, List.filter q (List.filter p l) = List.filter q l.
Proof.
  intros H. induction l as [|x r IH]; [reflexivity|].
  simpl. destruct (p x) eqn:Ep; simpl; rewrite IH; [reflexivity|].
  destruct (q x) eqn:Eq; [|reflexivity].
  rewrite (H x Eq) in Ep. discriminate Ep.
Qed.

Lemma filter_filter_excl {A} (q p : A -> bool) :
  (forall t, q t = true -> p t = false) ->
  forall l, List.filter q (List.filter p l) = [].
Proof.
  intros H. induction l as [|x r IH]; [reflexivity|].
  simpl. destruct (p x) eqn:Ep; simpl; [|exact IH].
  destruct (q x) eqn:Eq; [|exact IH].
  rewrite (H x Eq) in Ep. discriminate Ep.
Qed.

Lemma sameGroup_completion k c t : sameGroup k c t = true -> isCompleted t = c.
Proof.
  unfold sameGroup. intros H. apply andb_true_iff in H.
  destruct H as [_ H]. apply Bool.eqb_prop in H. exact H.
Qed.

Lemma filter_sameGroup_split (k : Z) (c : bool) (l : list Task) :
  List.filter (sameGroup k c) (List.filter (fun t => negb (isCompleted t)) l)
    ++ List.filter (sameGroup k c) (List.filter isCompleted l)
  = List.filter (sameGroup k c) l.
Proof.
  destruct c.
  - rewrite filter_filter_excl, filter_filter_imp; [reflexivity| |].
    + intros t H. exact (sameGroup_completion k true t H).
    + intros t H. rewrite (sameGroup_completion k true t H). reflexivity.
  - rewrite filter_filter_imp, filter_filter_excl; [apply app_nil_r| |].
    + intros t H. exact (sameGroup_completion k false t H).
    + intros t H. rewrite (sameGroup_completion k false t H). reflexivity.
Qed.

(** X20. The two sorts are stable together: top-level tasks with the same
    time stamp and the same completion are listed in the order the array
    had them in. *)
Theorem renderedTasks_stable (tasks : list Task) (k : Z) (c : bool) :
  List.filter (sameGroup k c) (renderedTasks tasks)
  = List.filter (sameGroup k c) tasks.
Proof.
  unfold renderedTasks.
  rewrite sort_completedLast, !sort_newestFirst_filter, filter_app.
  rewrite !sort_newestFirst_filter.
  rewrite !(sort_same_stamp k).
  - apply filter_sameGroup_split.
  - apply Forall_forall. intros t Ht. apply filter_In in Ht.
    destruct Ht as [_ Ht]. unfold sameGroup in Ht.
    apply andb_true_iff in Ht. destruct Ht as [Ht _]. apply Z.eqb_eq. exact Ht.
  - apply Forall_forall. intros t Ht. apply filter_In in Ht.
    destruct Ht as [_ Ht]. unfold sameGroup in Ht.
    apply andb_true_iff in Ht. destruct Ht as [Ht _]. apply Z.eqb_eq. exact Ht.
Qed.

(** * The conversation round *)

Section ConversationFacts.

Variable toLowerCase : string -> string.
Variable generateId : nat -> string.
Variable now : nat -> Z.
Variable eager : nat -> bool.
Variable trim : string -> string.
Variable messageId : nat -> string.
Variable messageTime : nat -> Z.
Variable reply : string -> option Response.t.
Variable followUp : string -> list FunctionResponse.t -> option Response.t.

Local Abbreviation logged :=
  (loggedToolLoop toLowerCase generateId now eager messageId messageTime).
Local Abbreviation plain := (toolLoop toLowerCase generateId now eager).

Lemma appendMessage_eq text sender a :
  snd (appendMessage messageId messageTime text sender a)
  = mkApp (input a) (isLoading a) (session a)
          (messages a
             ++ [ChatMessage.mk (messageId (List.length (messages a))) text sender
                                (messageTime (List.length (messages a)))])
          (component a).
Proof. reflexivity. Qed.

Lemma loggedToolLoop_cons n call rest a :
  logged n (call :: rest) a =
  let a1 := snd (appendMessage messageId messageTime
                   ("Executing: " ++ FunctionCall.name call ++ "...") SYSTEM a) in
  let (toolResult, c1) :=
    dispatch toLowerCase generateId now eager n call (component a1) in
  let (responseParts, a3) :=
    logged (S n) rest
           (mkApp (input a1) (isLoading a1) (session a1) (messages a1) c1) in
  (FunctionResponse.mk (FunctionCall.name call) toolResult (FunctionCall.id call)
     :: responseParts, a3).
Proof.
  cbn [loggedToolLoop]. unfold St.bind, onComponent. cbn [appendMessage snd component].
  destruct (dispatch toLowerCase generateId now eager n call (component a)) as [r c1].
  cbn [input isLoading session messages].
  destruct (logged (S n) rest _); reflexivity.
Qed.

(** The loop with its log is the tool loop on the component, plus one
    log line per invocation. *)
Lemma loggedToolLoop_spec :
  forall calls n a,
    fst (logged n calls a) = fst (plain n calls (component a))
    /\ component (snd (logged n calls a)) = snd (plain n calls (component a))
    /\ List.map shown (messages (snd (logged n calls a)))
       = List.map shown (messages a) ++ List.map logLine calls
    /\ input (snd (logged n calls a)) = input a
    /\ isLoading (snd (logged n calls a)) = isLoading a
    /\ session (snd (logged n calls a)) = session a.
Proof.
  induction calls as [|call rest IH]; intros n a.
  - simpl. rewrite app_nil_r. repeat split.
  - rewrite toolLoop_cons, loggedToolLoop_cons. cbv zeta.
    rewrite appendMessage_eq. cbn [component input isLoading session messages].
    destruct (dispatch toLowerCase generateId now eager n call (component a))
      as [r c1].
    match goal with
    | |- context [logged (S n) rest ?a1] =>
        destruct (IH (S n) a1) as (H1 & H2 & H3 & H4 & H5 & H6);
        destruct (logged (S n) rest a1) as [rs a2]
    end.
    cbn [fst snd component messages input isLoading session] in *.
    destruct (plain (S n) rest c1) as [rs' c2]. cbn [fst snd] in *.
    rewrite H1, H2, H3, H4, H5, H6, map_app. cbn [List.map shown logLine
      ChatMessage.sender ChatMessage.text].
    rewrite <- app_assoc. repeat split.
Qed.

End ConversationFacts.

(** X21. A submission is ignored, and nothing changes, when the input is blank
    after trimming, when no chat session exists, or while a round is in
    flight. *)
Theorem handleSendMessage_ignored
        (toLowerCase : string -> string) (generateId : nat -> string)
        (now : nat -> Z) (eager : nat -> bool) (trim : string -> string)
        (messageId : nat -> string) (messageTime : nat -> Z)
        (reply : string -> option Response.t)
        (followUp : string -> list FunctionResponse.t -> option Response.t)
        (a : App) :
  trim (input a) = "" \/ session a = false \/ isLoading a = true ->
  handleSendMessage toLowerCase generateId now eager trim messageId messageTime
                    reply followUp a
  = a.
Proof.
  intros H. unfold handleSendMessage.
  destruct H as [H|[H|H]]; rewrite H; cbn [String.eqb negb orb];
    rewrite ?orb_true_r; reflexivity.
Qed.

Lemma handleSendMessage_ignored_while_loading :
  (sample_trim (input (mkApp "add X" true true [] (mkComponent [] []))) = ""
   \/ session (mkApp "add X" true true [] (mkComponent [] [])) = false
   \/ isLoading (mkApp "add X" true true [] (mkComponent [] [])) = true)
  /\ handleSendMessage JS.ascii_toLowerCase sample_generateId sample_now sample_eager
                      sample_trim sample_messageId sample_now
                      sample_reply sample_followUp
                      (mkApp "add X" true true [] (mkComponent [] []))
     = mkApp "add X" true true [] (mkComponent [] []).
Proof.
  assert (H : sample_trim (input (mkApp "add X" true true [] (mkComponent [] []))) = ""
              \/ session (mkApp "add X" true true [] (mkComponent [] [])) = false
              \/ isLoading (mkApp "add X" true true [] (mkComponent [] [])) = true)
    by (right; right; reflexivity).
  split; [exact H|].
  exact (handleSendMessage_ignored JS.ascii_toLowerCase sample_generateId sample_now
           sample_eager sample_trim sample_messageId sample_now
           sample_reply sample_followUp _ H).
Defined.

Section RoundFacts.

Variable toLowerCase : string -> string.
Variable generateId : nat -> string.
Variable now : nat -> Z.
Variable eager : nat -> bool.
Variable trim : string -> string.
Variable messageId : nat -> string.
Variable messageTime : nat -> Z.
Variable reply : string -> option Response.t.
Variable followUp : string -> list FunctionResponse.t -> option Response.t.

Local Abbreviation handle :=
  (handleSendMessage toLowerCase generateId now eager trim messageId messageTime
                     reply followUp).
Local Abbreviation plain := (toolLoop toLowerCase generateId now eager).

(** The text of the message that closes the round. *)
Local Abbreviation closing a :=
  (match reply (input a) with
   | None => apology
   | Some result =>
       match callsOf (reply (input a)) with
       | [] => Response.text result
       | _ :: _ =>
           match followUp (input a)
                          (fst (plain 0 (callsOf (reply (input a))) (component a))) with
           | None => apology
           | Some result' => Response.text result'
           end
       end
   end).

Lemma handleSendMessage_round (a : App) :
  trim (input a) <> "" -> session a = true -> isLoading a = false ->
  input (handle a) = ""
  /\ isLoading (handle a) = false
  /\ session (handle a) = true
  /\ List.map shown (messages (handle a))
     = List.map shown (messages a)
         ++ (USER, input a) :: List.map logLine (callsOf (reply (input a)))
         ++ [(AI, closing a)].
Proof.
  intros Htrim Hsession Hloading.
  unfold handleSendMessage.
  rewrite (proj2 (String.eqb_neq _ _) Htrim), Hsession, Hloading.
  cbn [negb orb]. cbv zeta. rewrite appendMessage_eq.
  cbn [input isLoading session messages component].
  unfold tryRound, callsOf.
  destruct (reply (input a)) as [result|].
  2:{ rewrite appendMessage_eq.
      cbn [input isLoading session messages component fst snd].
      rewrite !map_app. cbn [List.map shown ChatMessage.sender ChatMessage.text].
      rewrite <- app_assoc. repeat split. }
  destruct (Response.functionCalls result) as [[|call rest]|].
  - rewrite appendMessage_eq.
    cbn [input isLoading session messages component fst snd].
    rewrite !map_app. cbn [List.map shown ChatMessage.sender ChatMessage.text].
    rewrite <- app_assoc. repeat split.
  - match goal with
    | |- context [loggedToolLoop _ _ _ _ _ _ 0 (call :: rest) ?a2] =>
        destruct (loggedToolLoop_spec toLowerCase generateId now eager
                    messageId messageTime (call :: rest) 0 a2)
          as (H1 & H2 & H3 & H4 & H5 & H6);
        destruct (loggedToolLoop toLowerCase generateId now eager
                    messageId messageTime 0 (call :: rest) a2) as [rs a3]
    end.
    cbn [fst snd input isLoading session messages component] in *.
    rewrite <- H1.
    destruct (followUp (input a) rs) as [result'|];
      rewrite appendMessage_eq;
      cbn [input isLoading session messages component fst snd];
      rewrite map_app, H3, H4, H6, map_app;
      cbn [List.map shown ChatMessage.sender ChatMessage.text];
      rewrite <- !app_assoc; repeat split.
  - rewrite appendMessage_eq.
    cbn [input isLoading session messages component fst snd].
    rewrite !map_app. cbn [List.map shown ChatMessage.sender ChatMessage.text].
    rewrite <- app_assoc. repeat split.
Qed.

End RoundFacts.

(** X22. An accepted submission clears the input, ends with [isLoading] reset,
    and appends to the history, in this order: the user's message, one
    log line per function call of the first reply, and exactly one
    message of the assistant.  That message is the text of the reply that
    closed the round, or the apology when a request to the model
    failed. *)
Theorem handleSendMessage_history
        (toLowerCase : string -> string) (generateId : nat -> string)
        (now : nat -> Z) (eager : nat -> bool) (trim : string -> string)
        (messageId : nat -> string) (messageTime : nat -> Z)
        (reply : string -> option Response.t)
        (followUp : string -> list FunctionResponse.t -> option Response.t)
        (a : App) :
  trim (input a) <> "" -> session a = true -> isLoading a = false ->
  let a' :=
    handleSendMessage toLowerCase generateId now eager trim messageId messageTime
                      reply followUp a in
  let calls := callsOf (reply (input a)) in
  let closing :=
    match reply (input a) with
    | None => apology
    | Some result =>
        match calls with
        | [] => Response.text result
        | _ :: _ =>
            match followUp (input a)
                           (fst (toolLoop toLowerCase generateId now eager 0 calls
                                          (component a))) with
            | None => apology
            | Some result' => Response.text result'
            end
        end
    end in
  input a' = ""
  /\ isLoading a' = false
  /\ List.map shown (messages a')
     = List.map shown (messages a)
         ++ (USER, input a) :: List.map logLine calls ++ [(AI, closing)].
Proof.
  intros Htrim Hsession Hloading a' calls closing.
  destruct (handleSendMessage_round toLowerCase generateId now eager trim
              messageId messageTime reply followUp a Htrim Hsession Hloading)
    as (H1 & H2 & _ & H4).
  repeat split; assumption.
Qed.

Lemma sample_app_accepted :
  sample_trim (input sample_app) <> ""
  /\ session sample_app = true /\ isLoading sample_app = false.
Proof. repeat split. discriminate. Qed.

Lemma handleSendMessage_history_sample :
  input (handleSendMessage JS.ascii_toLowerCase sample_generateId sample_now
           sample_eager sample_trim sample_messageId sample_now
           sample_reply sample_followUp sample_app) = ""
  /\ isLoading (handleSendMessage JS.ascii_toLowerCase sample_generateId sample_now
                  sample_eager sample_trim sample_messageId sample_now
                  sample_reply sample_followUp sample_app) = false
  /\ List.map shown
       (messages (handleSendMessage JS.ascii_toLowerCase sample_generateId sample_now
                    sample_eager sample_trim sample_messageId sample_now
                    sample_reply sample_followUp sample_app))
     = [ (USER, "add X"); (SYSTEM, "Executing: addTask..."); (AI, apology) ].
Proof.
  exact (handleSendMessage_history JS.ascii_toLowerCase sample_generateId sample_now
           sample_eager sample_trim sample_messageId sample_now
           sample_reply sample_followUp sample_app
           (proj1 sample_app_accepted)
           (proj1 (proj2 sample_app_accepted))
           (proj2 (proj2 sample_app_accepted))).
Defined.

(** * What the flag operations leave alone *)

Lemma flagless_with_isCompleted d t b :
  flagless (d, alone (with_isCompleted t b)) = flagless (d, alone t).
Proof. destruct t as [i ti c p ca [s|]]; reflexivity. Qed.

Lemma toggle_flagless id0 :
  forall l d,
    List.map flagless (rows d (toggleTaskRecursive l id0))
    = List.map flagless (rows d l).
Proof.
  induction l as [|t ts IHsub IHts] using forest_ind; intros d; [reflexivity|].
  assert (Hcons : toggleTaskRecursive (t :: ts) id0
                  = toggleTask id0 t :: toggleTaskRecursive ts id0) by reflexivity.
  rewrite Hcons, !rows_cons. cbn [List.map]. rewrite !map_app, IHts.
  rewrite toggleTask_eq. destruct (id t =? id0).
  - rewrite flagless_with_isCompleted.
    assert (Hc : children (with_isCompleted t (negb (isCompleted t))) = children t)
      by (destruct t; reflexivity).
    rewrite Hc. reflexivity.
  - destruct (subtasks t) as [subs|] eqn:Es; [|reflexivity].
    rewrite (alone_with_subtasks _ _ (toggleTaskRecursive subs id0) Es).
    assert (Hc : children (with_subtasks t (Some (toggleTaskRecursive subs id0)))
                 = toggleTaskRecursive subs id0) by reflexivity.
    rewrite Hc, (IHsub subs eq_refl), (children_Some _ _ Es). reflexivity.
Qed.

Lemma update_flagless taskId b :
  forall l d found,
    List.map flagless (rows d (fst (updateList taskId b l found)))
    = List.map flagless (rows d l).
Proof.
  induction l as [|t ts IHsub IHts] using forest_ind; intros d found; [reflexivity|].
  rewrite updateList_cons, updateTask_eq.
  destruct (JS.strict_eq (id t) taskId).
  - specialize (IHts d true).
    destruct (updateList taskId b ts true) as [ts' f2]. cbn [fst] in *.
    rewrite !rows_cons. cbn [List.map]. rewrite !map_app, IHts.
    rewrite flagless_with_isCompleted.
    assert (Hc : children (with_isCompleted t b) = children t)
      by (destruct t; reflexivity).
    rewrite Hc. reflexivity.
  - destruct (subtasks t) as [subs|] eqn:Es.
    + specialize (IHsub subs eq_refl (S d) found).
      destruct (updateList taskId b subs found) as [subs' f1]. cbn [fst] in IHsub.
      specialize (IHts d f1).
      destruct (updateList taskId b ts f1) as [ts' f2]. cbn [fst] in *.
      rewrite !rows_cons. cbn [List.map]. rewrite !map_app, IHts.
      rewrite (alone_with_subtasks _ _ subs' Es).
      assert (Hc : children (with_subtasks t (Some subs')) = subs') by reflexivity.
      rewrite Hc, IHsub, (children_Some _ _ Es). reflexivity.
    + specialize (IHts d found).
      destruct (updateList taskId b ts found) as [ts' f2]. cbn [fst] in *.
      rewrite !rows_cons. cbn [List.map]. rewrite !map_app, IHts. reflexivity.
Qed.

(** X13. Toggling and setting the completion flag change completion flags and
    nothing else, whatever the id and however often it occurs: the nodes,
    their order, their depths and their other fields stay. *)
Theorem flags_only (F : list Task) (id0 : string) (taskId : option string) (b : bool) :
  List.map flagless (rows 0 (toggleTaskRecursive F id0)) = List.map flagless (rows 0 F)
  /\ List.map flagless (rows 0 (fst (updateStatusRecursive F taskId b)))
     = List.map flagless (rows 0 F).
Proof. split; [apply toggle_flagless|apply update_flagless]. Qed.

(** * An update after an add in the same batch *)


